(** * CASM symmetry canonicalisation: lattice points, comparators, canonical search

    A shallow embedding of the lattice-point reduction
    ([LatticePointWithin_f], [OrderedLatticePointGenerator]), of the cluster
    comparators ([AperiodicSymCompare], [PrimPeriodicSymCompare],
    [ScelPeriodicSymCompare], [WithinScelSymCompare]), of the supercell
    canonical-form search ([ScelCanonicalGenerator], [ScelIsCanonical]) and of
    [Permutation::permute] / [Permutation::ipermute].

    Conventions.  The C++ [long] and [Index] values are integers [Z]; signed
    overflow is undefined behaviour in C++ and lies outside the model.  A
    constructor that may throw returns a [result]. *)

From stdpp Require Import base list.
From Stdlib Require Import ZArith Lia Bool Ascii.

(** ** Results of operations that may throw *)

Inductive exception : Type :=
| runtime_error.

Inductive result (A : Type) : Type :=
| Constructed (a : A)
| Thrown (e : exception).
Arguments Constructed {A} a.
Arguments Thrown {A} e.

Definition result_bind {A B} (r : result A) (k : A -> result B) : result B :=
  match r with
  | Constructed a => k a
  | Thrown e => Thrown e
  end.

(** ** The contract of a comparator

    [compare(A,B)] returns [true] to indicate [A < B], and is assumed to be a
    strict weak order. *)

Definition irreflexive {A} (ltb : A -> A -> bool) : Prop :=
  forall a, ltb a a = false.

Definition transitive {A} (ltb : A -> A -> bool) : Prop :=
  forall a b c, ltb a b = true -> ltb b c = true -> ltb a c = true.

(** Being not less is transitive: with irreflexivity and transitivity this
    makes [ltb] a strict weak order. *)
Definition negatively_transitive {A} (ltb : A -> A -> bool) : Prop :=
  forall a b c, ltb a b = false -> ltb b c = false -> ltb a c = false.

(** "Equivalence is indicated by [!compare(A,B) && !compare(B,A)]". *)
Definition equal {Element} (compare : Element -> Element -> bool)
    (A B : Element) : bool :=
  negb (compare A B) && negb (compare B A).

(** ** Integer 3x3 matrices and 3-vectors ([Eigen::Matrix<long,3,3>], [Eigen::Matrix<long,3,1>]) *)

Module Eigen.
Local Open Scope Z_scope.

Record vector_type : Type := Vec3 { vx : Z; vy : Z; vz : Z }.

Record matrix_type : Type := Mat3 {
  m00 : Z; m01 : Z; m02 : Z;
  m10 : Z; m11 : Z; m12 : Z;
  m20 : Z; m21 : Z; m22 : Z }.

Definition Identity : matrix_type := Mat3 1 0 0 0 1 0 0 0 1.

Definition diag (a b c : Z) : matrix_type := Mat3 a 0 0 0 b 0 0 0 c.

Definition vec_add (a b : vector_type) : vector_type :=
  Vec3 (vx a + vx b) (vy a + vy b) (vz a + vz b).

Definition vec_sub (a b : vector_type) : vector_type :=
  Vec3 (vx a - vx b) (vy a - vy b) (vz a - vz b).

Definition vec_opp (a : vector_type) : vector_type :=
  Vec3 (- vx a) (- vy a) (- vz a).

Definition vec_scale (c : Z) (a : vector_type) : vector_type :=
  Vec3 (c * vx a) (c * vy a) (c * vz a).

(** [v / c], component by component. *)
Definition vec_div (a : vector_type) (c : Z) : vector_type :=
  Vec3 (vx a / c) (vy a / c) (vz a / c).

(** Component by component remainder. *)
Definition vec_mod (a : vector_type) (c : Z) : vector_type :=
  Vec3 (vx a mod c) (vy a mod c) (vz a mod c).

Definition mat_vec (M : matrix_type) (v : vector_type) : vector_type :=
  Vec3 (m00 M * vx v + m01 M * vy v + m02 M * vz v)
       (m10 M * vx v + m11 M * vy v + m12 M * vz v)
       (m20 M * vx v + m21 M * vy v + m22 M * vz v).

Definition mat_mul (A B : matrix_type) : matrix_type :=
  Mat3 (m00 A * m00 B + m01 A * m10 B + m02 A * m20 B)
       (m00 A * m01 B + m01 A * m11 B + m02 A * m21 B)
       (m00 A * m02 B + m01 A * m12 B + m02 A * m22 B)
       (m10 A * m00 B + m11 A * m10 B + m12 A * m20 B)
       (m10 A * m01 B + m11 A * m11 B + m12 A * m21 B)
       (m10 A * m02 B + m11 A * m12 B + m12 A * m22 B)
       (m20 A * m00 B + m21 A * m10 B + m22 A * m20 B)
       (m20 A * m01 B + m21 A * m11 B + m22 A * m21 B)
       (m20 A * m02 B + m21 A * m12 B + m22 A * m22 B).

(** [Eigen::MatrixBase::determinant] of a 3x3 matrix. *)
Definition determinant (M : matrix_type) : Z :=
  m00 M * (m11 M * m22 M - m12 M * m21 M)
  - m01 M * (m10 M * m22 M - m12 M * m20 M)
  + m02 M * (m10 M * m21 M - m11 M * m20 M).

(** Modelled from the spec: [adjugate] is declared in
    [casm/misc/CASM_Eigen_math.hh], which is not part of the sources at
    hand.  It is the integer matrix with
    [adjugate(T) = det(T) * inverse(T)], that is the transpose of the
    cofactor matrix. *)
Definition adjugate (M : matrix_type) : matrix_type :=
  Mat3 (m11 M * m22 M - m12 M * m21 M)
       (m02 M * m21 M - m01 M * m22 M)
       (m01 M * m12 M - m02 M * m11 M)
       (m12 M * m20 M - m10 M * m22 M)
       (m00 M * m22 M - m02 M * m20 M)
       (m02 M * m10 M - m00 M * m12 M)
       (m10 M * m21 M - m11 M * m20 M)
       (m01 M * m20 M - m00 M * m21 M)
       (m00 M * m11 M - m01 M * m10 M).

Definition is_diagonal (M : matrix_type) : Prop :=
  m01 M = 0 /\ m02 M = 0 /\ m10 M = 0 /\ m12 M = 0 /\ m20 M = 0 /\ m21 M = 0.

Definition vector_eq_dec (a b : vector_type) : {a = b} + {a <> b}.
Proof. decide equality; apply Z.eq_dec. Defined.
End Eigen.

(** ** Unit cells and integral site coordinates *)

Module xtal.
(** [UnitCell]: the (i,j,k) of a lattice point. *)
Definition UnitCell : Type := Eigen.vector_type.

(** [UnitCellCoord]: sublattice index [b] and unit cell (i,j,k). *)
Record UnitCellCoord : Type := { sublat : Z; unitcell : UnitCell }.

Definition ucc_plus (bijk : UnitCellCoord) (frac : UnitCell) : UnitCellCoord :=
  {| sublat := sublat bijk; unitcell := Eigen.vec_add (unitcell bijk) frac |}.

Definition ucc_minus (bijk : UnitCellCoord) (frac : UnitCell) : UnitCellCoord :=
  {| sublat := sublat bijk; unitcell := Eigen.vec_sub (unitcell bijk) frac |}.
End xtal.

(** ** [LatticePointWithin_f] *)

Module LatticePointWithin.
Import Eigen xtal.
Local Open Scope Z_scope.

Record LatticePointWithin_f : Type := {
  m_transformation_matrix : matrix_type;
  m_transformation_matrix_adjugate : matrix_type;
  m_total_lattice_points_in_superlattice : Z }.

(** Modelled from the spec: the body of
    [_throw_if_bad_transformation_matrix] is not part of the sources at
    hand; its declaration reads "Throws exception if the transformation
    matrix has determinant 0". *)
Definition _throw_if_bad_transformation_matrix
    (transformation_matrix : matrix_type) : result unit :=
  if determinant transformation_matrix =? 0 then Thrown runtime_error
  else Constructed tt.

(** [LatticePointWithin_f(const matrix_type &)]: the three members are
    initialised, then the body checks the matrix. *)
Definition make (superlattice_transformation_matrix : matrix_type)
    : result LatticePointWithin_f :=
  let this :=
    {| m_transformation_matrix := superlattice_transformation_matrix;
       m_transformation_matrix_adjugate :=
         adjugate superlattice_transformation_matrix;
       m_total_lattice_points_in_superlattice :=
         determinant superlattice_transformation_matrix |} in
  result_bind
    (_throw_if_bad_transformation_matrix (m_transformation_matrix this))
    (fun _ => Constructed this).

(** Modelled from the spec: [operator()(const vector_type &)] is only
    declared in the sources at hand.  "Use the adjugate of T to express the
    coordinate in a scaled basis, apply component-wise modulo reduction by
    det(T), and map back -- all in integer arithmetic." *)
Definition call (f : LatticePointWithin_f) (ijk : vector_type) : vector_type :=
  let det := m_total_lattice_points_in_superlattice f in
  let scaled := mat_vec (m_transformation_matrix_adjugate f) ijk in
  let within := vec_mod scaled det in
  vec_div (mat_vec (m_transformation_matrix f) within) det.

(** Modelled from the spec: [operator()(const UnitCellCoord &)] is only
    declared in the sources at hand.  The sublattice index is kept and the
    unit cell is brought within the superlattice. *)
Definition call_bijk (f : LatticePointWithin_f) (bijk : UnitCellCoord)
    : UnitCellCoord :=
  {| sublat := sublat bijk; unitcell := call f (unitcell bijk) |}.
End LatticePointWithin.

(** ** [OrderedLatticePointGenerator] *)

Module OrderedLatticePoint.
Import Eigen.
Local Open Scope Z_scope.

Record OrderedLatticePointGenerator : Type := {
  m_total_lattice_points : Z;
  m_bring_within_f : LatticePointWithin.LatticePointWithin_f;
  m_smith_normal_U : matrix_type;
  m_smith_normal_S : matrix_type;
  m_smith_normal_V : matrix_type;
  m_stride : Z * Z }.

(** The Smith normal form decomposition of the transformation matrix,
    [trans_mat = U*S*V] with [U] and [V] unimodular and [S] diagonal with a
    positive diagonal.  The routine that computes it belongs to
    [CASM_Eigen_math], which is not part of the sources at hand; the
    generator takes it as a parameter. *)
Definition smith_normal_form_type : Type :=
  matrix_type -> matrix_type * matrix_type * matrix_type.

Definition is_smith_normal_form (T snf_U snf_S snf_V : matrix_type) : Prop :=
  T = mat_mul (mat_mul snf_U snf_S) snf_V /\
  Z.abs (determinant snf_U) = 1 /\
  Z.abs (determinant snf_V) = 1 /\
  is_diagonal snf_S /\
  0 < m00 snf_S /\ 0 < m11 snf_S /\ 0 < m22 snf_S.

(** Modelled from the spec: the constructor is only declared in the sources
    at hand.  "Given T, expose size() = |det(T)|"; "compute the Smith
    Normal Form T = U_s * S_s * V_s; the diagonal of S_s yields three
    stride extents"; the declaration of [m_stride] reads "stride maps
    canonical 3d index (m,n,p) onto linear index --
    l = m + n*stride[0] + p*stride[1]".  The member [m_bring_within_f] is
    constructed from the same matrix, and throws for a determinant 0. *)
Definition make (smith_normal_form : smith_normal_form_type)
    (transformation_matrix : matrix_type)
    : result OrderedLatticePointGenerator :=
  result_bind (LatticePointWithin.make transformation_matrix)
    (fun bring_within_f =>
       let '(snf_U, snf_S, snf_V) := smith_normal_form transformation_matrix in
       Constructed
         {| m_total_lattice_points := Z.abs (determinant transformation_matrix);
            m_bring_within_f := bring_within_f;
            m_smith_normal_U := snf_U;
            m_smith_normal_S := snf_S;
            m_smith_normal_V := snf_V;
            m_stride := (m00 snf_S, m00 snf_S * m11 snf_S) |}).

(** [size()]: "Returns the total number of unique lattice points that can
    be generated". *)
Definition size (g : OrderedLatticePointGenerator) : Z :=
  m_total_lattice_points g.

(** Modelled from the spec: "a linear index decomposes via mixed-radix
    arithmetic into a triplet (m, n, p) bounded by those extents". *)
Definition _make_smith_normal_form_lattice_point
    (g : OrderedLatticePointGenerator) (ix : Z) : vector_type :=
  let stride0 := fst (m_stride g) in
  let stride1 := snd (m_stride g) in
  Vec3 ((ix mod stride1) mod stride0) ((ix mod stride1) / stride0) (ix / stride1).

(** Modelled from the spec: "multiply by U_s to convert into the original
    tiling-unit coordinate system, then apply the Lattice Point Reduction";
    the declaration reads "U*mnp = ijk". *)
Definition _normalize_lattice_point
    (g : OrderedLatticePointGenerator) (mnp : vector_type) : vector_type :=
  LatticePointWithin.call (m_bring_within_f g) (mat_vec (m_smith_normal_U g) mnp).

(** Modelled from the spec: [operator()(Index ix)]. *)
Definition call (g : OrderedLatticePointGenerator) (ix : Z) : vector_type :=
  _normalize_lattice_point g (_make_smith_normal_form_lattice_point g ix).

(** The linear indices [0, 1, ..., n-1]. *)
Definition indices (n : Z) : list Z := map Z.of_nat (seq 0 (Z.to_nat n)).

(** Modelled from the spec: [make_lattice_points] "produces the full list
    of lattice points for a transformation matrix by calling the generator
    size() times". *)
Definition make_lattice_points (g : OrderedLatticePointGenerator)
    : list vector_type :=
  map (call g) (indices (size g)).
End OrderedLatticePoint.

(** ** The fundamental domain of a superlattice *)

Module FundamentalDomain.
Local Open Scope Z_scope.

(** A coordinate [c], scaled by [d], stands for a fraction [c / d] in
    [0, 1). *)
Definition fraction_of (d c : Z) : Prop := 0 <= Z.sgn d * c < Z.abs d.
End FundamentalDomain.

(** ** Cluster elements *)

Module Cluster.
Import xtal.

(** What the comparators ask of their [Element] template argument:
    [size()], [sort()], [traits<Element>::position], translation by a unit
    cell ([operator+], [operator-]), site access [obj[i]], assignment
    [obj[i] = site] and [operator<].  Sorting puts the constituents into
    canonical internal order, so an element without constituents is left
    as it is. *)
Class ClusterElement (Element : Type) : Type := {
  size : Element -> nat;
  sort : Element -> Element;
  position : Element -> UnitCellCoord;
  plus : Element -> UnitCell -> Element;
  minus : Element -> UnitCell -> Element;
  site : Element -> nat -> UnitCellCoord;
  assign : Element -> nat -> UnitCellCoord -> Element;
  less : Element -> Element -> bool }.

Class ClusterElementLaws (Element : Type) `{ClusterElement Element} : Prop := {
  sort_empty : forall obj : Element, size obj = 0%nat -> sort obj = obj }.

Local Open Scope Z_scope.

(** Modelled from the spec: [UnitCellCoord::operator<] is not part of the
    sources at hand.  Sites are ordered by unit cell (i, then j, then k),
    then by sublattice. *)
Definition ucc_key (s : UnitCellCoord) : list Z :=
  [Eigen.vx (unitcell s); Eigen.vy (unitcell s); Eigen.vz (unitcell s); sublat s].

Fixpoint lex_ltb {A} (ltb : A -> A -> bool) (a b : list A) : bool :=
  match a, b with
  | _, [] => false
  | [], _ :: _ => true
  | x :: a', y :: b' =>
      if ltb x y then true
      else if ltb y x then false
      else lex_ltb ltb a' b'
  end.

Definition ucc_ltb (a b : UnitCellCoord) : bool :=
  lex_ltb Z.ltb (ucc_key a) (ucc_key b).

Fixpoint insert_sorted (s : UnitCellCoord) (l : list UnitCellCoord)
    : list UnitCellCoord :=
  match l with
  | [] => [s]
  | t :: l' => if ucc_ltb t s then t :: insert_sorted s l' else s :: t :: l'
  end.

Definition sort_sites (l : list UnitCellCoord) : list UnitCellCoord :=
  fold_right insert_sorted [] l.

Definition origin : UnitCellCoord :=
  {| sublat := 0; unitcell := Eigen.Vec3 0 0 0 |}.

(** Modelled from the spec: [IntegralCluster] is not part of the sources at
    hand.  It is a sequence of [UnitCellCoord]; its position is that of its
    first site, and clusters compare site by site. *)
Definition IntegralCluster : Type := list UnitCellCoord.

#[export] Instance IntegralCluster_element : ClusterElement IntegralCluster := {|
  size := @length UnitCellCoord;
  sort := sort_sites;
  position := fun obj => nth 0 obj origin;
  plus := fun obj frac => map (fun s => ucc_plus s frac) obj;
  minus := fun obj frac => map (fun s => ucc_minus s frac) obj;
  site := fun obj i => nth i obj origin;
  assign := fun obj i s => <[i := s]> obj;
  less := lex_ltb ucc_ltb |}.
End Cluster.

(** ** The cluster comparators *)

Module ClusterSymCompare.
Import xtal Cluster.

(** The translation last recorded by [spatial_prepare] (the mutable member
    [m_spatial_transform]), kept in lattice coordinates as the integer cell
    vector.  The source stores [SymOp::translation] of its Cartesian form,
    [lat_column_mat * translation.cast<double>()], which is computed in
    double precision: the model stands for the cell vector that goes into
    that product, not for the product. *)
Definition SpatialTransform : Type := UnitCell.

Section Policies.
Context {Element : Type} `{ClusterElement Element}.

(** A comparator: its two preparation steps and [compare_impl]. *)
Record SymCompare : Type := {
  spatial_prepare_impl :
    SpatialTransform -> Element -> Element * SpatialTransform;
  representation_prepare_impl : Element -> Element;
  compare_impl : Element -> Element -> bool }.

(** [ClusterSymCompare<Base>::compare_impl]: [A < B]. *)
Definition ClusterSymCompare_compare_impl (A B : Element) : bool := less A B.

(** *** [AperiodicSymCompare] *)

Definition Aperiodic_representation_prepare_impl (obj : Element) : Element :=
  sort obj.

Definition Aperiodic_spatial_prepare_impl
    (m_spatial_transform : SpatialTransform) (obj : Element)
    : Element * SpatialTransform :=
  (obj, m_spatial_transform).

(** *** [PrimPeriodicSymCompare] *)

Definition PrimPeriodic_spatial_prepare_impl
    (m_spatial_transform : SpatialTransform) (obj : Element)
    : Element * SpatialTransform :=
  if Nat.eqb (size obj) 0 then (obj, m_spatial_transform)
  else
    let pos := position obj in
    (minus obj (unitcell pos), Eigen.vec_opp (unitcell pos)).

Definition PrimPeriodic_representation_prepare_impl (obj : Element) : Element :=
  if Nat.eqb (size obj) 0 then obj
  else sort obj.

(** *** [ScelPeriodicSymCompare] *)

Definition ScelPeriodic_spatial_prepare_impl
    (m_bring_within_f : UnitCellCoord -> UnitCellCoord)
    (m_spatial_transform : SpatialTransform) (obj : Element)
    : Element * SpatialTransform :=
  if Nat.eqb (size obj) 0 then (obj, m_spatial_transform)
  else
    let pos := position obj in
    let shift :=
      Eigen.vec_sub (unitcell (m_bring_within_f pos)) (unitcell pos) in
    (plus obj shift, shift).

Definition ScelPeriodic_representation_prepare_impl (obj : Element) : Element :=
  if Nat.eqb (size obj) 0 then obj
  else sort obj.

(** *** [WithinScelSymCompare] *)

Definition WithinScel_spatial_prepare_impl
    (m_spatial_transform : SpatialTransform) (obj : Element)
    : Element * SpatialTransform :=
  (obj, m_spatial_transform).

(** [for(Index i = 0; i < obj.size(); ++i) obj[i] = m_bring_within_f(obj[i]);] *)
Fixpoint bring_sites_within
    (m_bring_within_f : UnitCellCoord -> UnitCellCoord)
    (idx : list nat) (obj : Element) : Element :=
  match idx with
  | [] => obj
  | i :: idx' =>
      bring_sites_within m_bring_within_f idx'
        (assign obj i (m_bring_within_f (site obj i)))
  end.

Definition WithinScel_representation_prepare_impl
    (m_bring_within_f : UnitCellCoord -> UnitCellCoord)
    (obj : Element) : Element :=
  if Nat.eqb (size obj) 0 then obj
  else sort (bring_sites_within m_bring_within_f (seq 0 (size obj)) obj).

(** The four policies. *)
Inductive Variant : Type :=
| Aperiodic
| PrimPeriodic
| ScelPeriodic (bring_within_f : UnitCellCoord -> UnitCellCoord)
| WithinScel (bring_within_f : UnitCellCoord -> UnitCellCoord).

Definition sym_compare (v : Variant) : SymCompare :=
  match v with
  | Aperiodic =>
      {| spatial_prepare_impl := Aperiodic_spatial_prepare_impl;
         representation_prepare_impl := Aperiodic_representation_prepare_impl;
         compare_impl := ClusterSymCompare_compare_impl |}
  | PrimPeriodic =>
      {| spatial_prepare_impl := PrimPeriodic_spatial_prepare_impl;
         representation_prepare_impl := PrimPeriodic_representation_prepare_impl;
         compare_impl := ClusterSymCompare_compare_impl |}
  | ScelPeriodic f =>
      {| spatial_prepare_impl := ScelPeriodic_spatial_prepare_impl f;
         representation_prepare_impl := ScelPeriodic_representation_prepare_impl;
         compare_impl := ClusterSymCompare_compare_impl |}
  | WithinScel f =>
      {| spatial_prepare_impl := WithinScel_spatial_prepare_impl;
         representation_prepare_impl := WithinScel_representation_prepare_impl f;
         compare_impl := ClusterSymCompare_compare_impl |}
  end.

(** Modelled from the spec: [SymCompare::prepare] belongs to the base
    class, which is not part of the sources at hand.
    "prepare(obj) = representation_prepare(spatial_prepare(obj))". *)
Definition prepare (cmp : SymCompare)
    (m_spatial_transform : SpatialTransform) (obj : Element)
    : Element * SpatialTransform :=
  let '(moved, transform) := spatial_prepare_impl cmp m_spatial_transform obj in
  (representation_prepare_impl cmp moved, transform).
End Policies.
Arguments SymCompare Element : clear implicits.
Arguments Variant : clear implicits.
End ClusterSymCompare.

(** ** What translation does to the position of an element *)

Module ClusterTranslation.
Import xtal Cluster.

(** [operator+] and [operator-] of an element translate every constituent,
    and with them the position of an element that has constituents. *)
Class ClusterTranslationLaws (Element : Type) `{ClusterElement Element} : Prop := {
  position_plus : forall (obj : Element) (frac : UnitCell),
    size obj <> 0%nat -> position (plus obj frac) = ucc_plus (position obj) frac;
  position_minus : forall (obj : Element) (frac : UnitCell),
    size obj <> 0%nat -> position (minus obj frac) = ucc_minus (position obj) frac }.
End ClusterTranslation.

(** ** The canonical-form search over a supercell's permutations *)

Module ScelOrbitGeneration.
Section Search.
Context {Element PermuteIterator : Type}.

(** The collaborators of the search: [m_sym_compare.prepare],
    [m_sym_compare.compare], [copy_apply] of a [PermuteIterator] to an
    element, and [PermuteIterator::inverse]. *)
Variable prepare : Element -> Element.
Variable compare : Element -> Element -> bool.
Variable copy_apply : PermuteIterator -> Element -> Element.
Variable inverse : PermuteIterator -> PermuteIterator.

(** What the search reads of a [Supercell]: the iterators from
    [permute_begin()] up to, and without, [permute_end()]. *)
Record Supercell : Type := {
  permute_range : list PermuteIterator;
  permute_end : PermuteIterator }.

Definition permute_begin (scel : Supercell) : PermuteIterator :=
  hd (permute_end scel) (permute_range scel).

Record ScelCanonicalGenerator : Type := {
  m_scel : Supercell;
  m_to_canonical : PermuteIterator }.

Definition supercell (gen : ScelCanonicalGenerator) : Supercell := m_scel gen.

(** The [while(it != end)] loop shared by the two overloads: the state is
    [result] and [m_to_canonical]. *)
Fixpoint canonical_loop (e : Element) (range : list PermuteIterator)
    (result : Element) (to_canonical : PermuteIterator)
    : Element * PermuteIterator :=
  match range with
  | [] => (result, to_canonical)
  | it :: range' =>
      let test := prepare (copy_apply it e) in
      if compare result test
      then canonical_loop e range' test it
      else canonical_loop e range' result to_canonical
  end.

(** [operator()(const Element &e)]: returns the element and the generator
    with its updated [m_to_canonical]. *)
Definition generate (gen : ScelCanonicalGenerator) (e : Element)
    : Element * ScelCanonicalGenerator :=
  let result := prepare e in
  let it := permute_begin (supercell gen) in
  let '(result', best) :=
    canonical_loop e (permute_range (supercell gen)) result it in
  (result', {| m_scel := m_scel gen; m_to_canonical := best |}).

(** [operator()(const Element &e, begin, end)]: [m_to_canonical = *it]
    dereferences [begin]; on an empty range that is undefined, and the
    model has no result.  The two lines written to [std::cout] are left
    out. *)
Definition generate_range (gen : ScelCanonicalGenerator) (e : Element)
    (range : list PermuteIterator)
    : option (Element * ScelCanonicalGenerator) :=
  match range with
  | [] => None
  | first :: _ =>
      let result := prepare e in
      let '(result', best) := canonical_loop e range result first in
      Some (result', {| m_scel := m_scel gen; m_to_canonical := best |})
  end.

Definition to_canonical (gen : ScelCanonicalGenerator) : PermuteIterator :=
  m_to_canonical gen.

Definition from_canonical (gen : ScelCanonicalGenerator) : PermuteIterator :=
  inverse (to_canonical gen).

(** [std::none_of]: stops at the first element that satisfies [pred]. *)
Fixpoint none_of {A : Type} (pred : A -> bool) (range : list A) : bool :=
  match range with
  | [] => true
  | x :: range' => if pred x then false else none_of pred range'
  end.

(** The lambda [less_than] of [ScelIsCanonical::operator()]. *)
Definition less_than (e : Element) (op : PermuteIterator) : bool :=
  let test := prepare (copy_apply op e) in
  compare e test.

(** [ScelIsCanonical::operator()(e, begin, end)]. *)
Definition is_canonical_range (e : Element) (range : list PermuteIterator)
    : bool :=
  none_of (less_than e) range.

(** [ScelIsCanonical::operator()(e)]. *)
Definition is_canonical (scel : Supercell) (e : Element) : bool :=
  is_canonical_range e (permute_range scel).
End Search.
Arguments Supercell PermuteIterator : clear implicits.
Arguments ScelCanonicalGenerator PermuteIterator : clear implicits.
End ScelOrbitGeneration.

(** ** [Orbit] *)

Module Orbit.
Section Orbit.
Context {Element SymOp : Type}.

(** [m_sym_compare.prepare], [m_sym_compare.compare] and [copy_apply] of a
    [SymOp] to an element. *)
Variable prepare : Element -> Element.
Variable compare : Element -> Element -> bool.
Variable copy_apply : SymOp -> Element -> Element.

Record Orbit : Type := {
  m_element : list Element;
  m_equivalence_map : list (list SymOp) }.

Definition size (o : Orbit) : nat := length (m_element o).

(** [element(index)]: "without bounds checking"; there is no result outside
    of the vector. *)
Definition element (o : Orbit) (index : nat) : option Element :=
  m_element o !! index.

(** [prototype()]: "Identical to element(0)". *)
Definition prototype (o : Orbit) : option Element := element o 0.

(** [equivalence_map(index)]: the operations of [m_equivalence_map[index]]. *)
Definition equivalence_map (o : Orbit) (index : nat) : option (list SymOp) :=
  m_equivalence_map o !! index.

(** [std::find_if]: the position of the first element that satisfies
    [pred]; [None] is [end()]. *)
Fixpoint find_if {A : Type} (pred : A -> bool) (range : list A) : option nat :=
  match range with
  | [] => None
  | x :: range' =>
      if pred x then Some 0%nat
      else match find_if pred range' with
           | Some i => Some (S i)
           | None => None
           end
  end.

Definition find (o : Orbit) (e : Element) : option nat :=
  find_if (fun B => equal compare e B) (m_element o).

Definition contains (o : Orbit) (e : Element) : bool :=
  match find o e with
  | Some _ => true
  | None => false
  end.

(** Modelled from the spec: the constructor and [_construct] are only
    declared in the sources at hand.  "Apply every group operation to the
    generating element, prepare each image, and merge into the growing set by
    equality-check against already-found images (append the operation to that
    image's equivalence-map entry on a match, otherwise create a new entry
    and seed its equivalence-map list)." *)
Definition merge (generating_element : Element) (o : Orbit) (op : SymOp)
    : Orbit :=
  let image := prepare (copy_apply op generating_element) in
  match find o image with
  | Some i =>
      {| m_element := m_element o;
         m_equivalence_map :=
           alter (fun ops => ops ++ [op]) i (m_equivalence_map o) |}
  | None =>
      {| m_element := m_element o ++ [image];
         m_equivalence_map := m_equivalence_map o ++ [[op]] |}
  end.

Definition construct (generating_element : Element)
    (generating_group : list SymOp) : Orbit :=
  fold_left (merge generating_element) generating_group
    {| m_element := []; m_equivalence_map := [] |}.

(** The invariant of the merge: every entry of the map belongs to an
    element, is not empty, and holds operations that send the generating
    element onto that element. *)
Definition map_sound (generating_element : Element) (o : Orbit) : Prop :=
  length (m_equivalence_map o) = length (m_element o) /\
  forall i el ops,
    m_element o !! i = Some el -> m_equivalence_map o !! i = Some ops ->
    ops <> [] /\
    forall op, In op ops ->
      equal compare (prepare (copy_apply op generating_element)) el = true.
End Orbit.
Arguments Orbit Element SymOp : clear implicits.
End Orbit.

(** ** [Permutation] *)

Module Permutation.
Local Open Scope Z_scope.

Record Permutation : Type := { m_perm_array : list Z }.

Definition size (p : Permutation) : Z := Z.of_nat (length (m_perm_array p)).

(** [v[j]] for an [Index j]: reading outside of the vector is undefined,
    and the model has no result. *)
Definition vector_at {T : Type} (v : list T) (j : Z) : option T :=
  if j <? 0 then None else v !! Z.to_nat j.

(** [v[j] = x] for an [Index j]. *)
Definition vector_set {T : Type} (v : list T) (j : Z) (x : T) : option (list T) :=
  if (0 <=? j) && (j <? Z.of_nat (length v))
  then Some (<[Z.to_nat j := x]> v)
  else None.

(** Modelled from the spec: the body of [is_perm] is not part of the
    sources at hand; its declaration reads "Checks that m_perm_array
    contains values from 0 to m_perm_array.size()-1 and that no value is
    repeated". *)
Fixpoint no_value_repeated (l : list Z) : bool :=
  match l with
  | [] => true
  | x :: l' => negb (existsb (Z.eqb x) l') && no_value_repeated l'
  end.

Definition is_perm (p : Permutation) : bool :=
  forallb (fun j => (0 <=? j) && (j <? size p)) (m_perm_array p)
  && no_value_repeated (m_perm_array p).

(** The loop of [permute]: [after_vec.push_back(before_vec[m_perm_array[i]])]. *)
Fixpoint permute_loop {T : Type} (p : Permutation) (before_vec : list T)
    (idx : list nat) (after_vec : list T) : option (list T) :=
  match idx with
  | [] => Some after_vec
  | i :: idx' =>
      match vector_at (m_perm_array p) (Z.of_nat i) with
      | None => None
      | Some j =>
          match vector_at before_vec j with
          | None => None
          | Some x => permute_loop p before_vec idx' (after_vec ++ [x])
          end
      end
  end.

(** [permute]: the assertion on the sizes comes first. *)
Definition permute {T : Type} (p : Permutation) (before_vec : list T)
    : option (list T) :=
  if Z.of_nat (length before_vec) =? size p
  then permute_loop p before_vec (seq 0 (Z.to_nat (size p))) []
  else None.

(** The loop of [ipermute]:
    [if(i != m_perm_array[i]) after_array[m_perm_array[i]] = before_array[i];] *)
Fixpoint ipermute_loop {T : Type} (p : Permutation) (before_array : list T)
    (idx : list nat) (after_array : list T) : option (list T) :=
  match idx with
  | [] => Some after_array
  | i :: idx' =>
      match vector_at (m_perm_array p) (Z.of_nat i) with
      | None => None
      | Some j =>
          if Z.of_nat i =? j
          then ipermute_loop p before_array idx' after_array
          else
            match vector_at before_array (Z.of_nat i) with
            | None => None
            | Some x =>
                match vector_set after_array j x with
                | None => None
                | Some after_array' =>
                    ipermute_loop p before_array idx' after_array'
                end
            end
      end
  end.

Definition ipermute {T : Type} (p : Permutation) (before_array : list T)
    : option (list T) :=
  if Z.of_nat (length before_array) =? size p
  then ipermute_loop p before_array (seq 0 (Z.to_nat (size p))) before_array
  else None.

Definition and_then {A B : Type} (o : option A) (k : A -> option B) : option B :=
  match o with
  | Some a => k a
  | None => None
  end.

(** What [is_perm] checks, as a proposition: the values lie in
    [0 .. size()-1] and no value is repeated. *)
Record valid (p : Permutation) : Prop := {
  valid_range : forall i j, m_perm_array p !! i = Some j -> 0 <= j < size p;
  valid_NoDup : NoDup (m_perm_array p) }.
End Permutation.

(** ** [Permutation]: construction and product with a vector *)

Module PermutationOps.
Import Permutation.
Local Open Scope Z_scope.

(** [std::iota(begin, end, 0)] on a vector of [N] entries. *)
Definition iota (N : nat) : list Z := map Z.of_nat (seq 0 N).

(** [Permutation(Index N)]: [m_perm_array(N)] followed by [std::iota].  A
    negative [N] is no size of a vector: the allocation throws, and the model
    has no result. *)
Definition make (N : Z) : option Permutation :=
  if N <? 0 then None
  else Some {| m_perm_array := iota (Z.to_nat N) |}.

(** The index that entry [i] of a permutation names; an [i] beyond the
    permutation names itself. *)
Definition named_index (p : Permutation) (i : nat) : nat :=
  match m_perm_array p !! i with
  | Some j => Z.to_nat j
  | None => i
  end.

(** [operator*(const std::vector<T> &)]. *)
Definition mul_vector {T : Type} (p : Permutation) (before_array : list T)
    : option (list T) :=
  permute p before_array.
End PermutationOps.

(** ** The label templates of [FunctionVisitor.cc] *)

Module FunctionVisitor.
Local Open Scope Z_scope.

(** A [std::string], character by character. *)
Definition cstring : Type := list ascii.

Definition percent : ascii := "%"%char.

Definition is_percent (c : ascii) : bool := Ascii.eqb c percent.

(** The loop of the constructors of [OccFuncLabeler], [VariableLabeler] and
    [SubExpressionLabeler], which parse [_template] into [m_sub_strings].
    The loop runs with a vector that is not empty: the state is what is
    left of the template from position [i] on, the sub-strings before the
    last one, and the last one, [m_sub_strings.back()].  At a ['%'] the last
    sub-string is closed when it has characters, [substr(i, 2)] becomes the
    last sub-string, [++i] skips its second character, and an empty
    sub-string is opened when a character is left after it. *)
Fixpoint parse_loop (rest : cstring) (closed : list cstring) (back : cstring)
    : list cstring :=
  match rest with
  | [] => closed ++ [back]
  | c :: rest' =>
      if is_percent c then
        let closed' :=
          match back with
          | [] => closed
          | _ :: _ => closed ++ [back]
          end in
        match rest' with
        | [] => closed' ++ [[c]]
        | c' :: rest'' =>
            match rest'' with
            | [] => closed' ++ [[c; c']]
            | _ :: _ => parse_loop rest'' (closed' ++ [[c; c']]) []
            end
        end
      else parse_loop rest' closed (back ++ [c])
  end.

(** [if(_template.size()) m_sub_strings.push_back(std::string());] and the
    loop. *)
Definition parse (_template : cstring) : list cstring :=
  match _template with
  | [] => []
  | _ :: _ => parse_loop _template [] []
  end.

(** A sub-string without a ['%']. *)
Definition literal (s : cstring) : Prop :=
  forall c, In c s -> is_percent c = false.

(** A sub-string of a parsed template: it has characters, and it is a
    ['%'] with at most one character after it, or it has no ['%']. *)
Definition piece (s : cstring) : Prop :=
  s <> [] /\
  ((exists after, s = percent :: after /\ (length after <= 1)%nat) \/ literal s).

(** What [OccFuncLabeler::visit] reads of the [OccupantFunction] it visits:
    [dof().ID()], [occ_func_ind()] and [basis_ind()], and its formula. *)
Record OccupantFunction : Type := {
  dof_ID : Z;
  occ_func_ind : Z;
  basis_ind : Z;
  formula : cstring }.

Definition set_formula (host : OccupantFunction) (new_formula : cstring)
    : OccupantFunction :=
  {| dof_ID := dof_ID host; occ_func_ind := occ_func_ind host;
     basis_ind := basis_ind host; formula := new_formula |}.

Section Labeler.
(** [valid_index] and the text that [operator<<] writes for an [Index]
    belong to [CASM_math] and to the standard library. *)
Variable valid_index : Z -> bool.
Variable show_index : Z -> cstring.

Definition label (i : Z) : cstring :=
  if valid_index i then show_index i else ["?"%char].

Definition tag (c : ascii) : cstring := [percent; c].

(** [operator==] of two strings. *)
Fixpoint cstring_eqb (a b : cstring) : bool :=
  match a, b with
  | [], [] => true
  | x :: a', y :: b' => Ascii.eqb x y && cstring_eqb a' b'
  | _, _ => false
  end.

(** What the loop of [OccFuncLabeler::visit] writes for one sub-string. *)
Definition expand (host : OccupantFunction) (sub_string : cstring) : cstring :=
  if cstring_eqb sub_string (tag "n"%char) then label (dof_ID host)
  else if cstring_eqb sub_string (tag "f"%char) then label (occ_func_ind host)
  else if cstring_eqb sub_string (tag "b"%char) then label (basis_ind host)
  else sub_string.

(** [OccFuncLabeler::visit(OccupantFunction &host, ...)]: the host with its
    new formula, and the value returned. *)
Definition OccFuncLabeler_visit (m_sub_strings : list cstring)
    (host : OccupantFunction) : OccupantFunction * bool :=
  (set_formula host (concat (map (expand host) m_sub_strings)), true).
End Labeler.
End FunctionVisitor.

(** ** A small supercell to run the definitions on *)

Module MirrorChain.
Import Eigen xtal Cluster.
Local Open Scope Z_scope.

(** A chain of six unit cells along the first lattice vector,
    [T = diag(6,1,1)], in a crystal whose factor group holds the identity
    and the mirror that sends the cell [i] to the cell [5 - i].  A
    permutation of the supercell is an operation of the factor group
    followed by one of the six lattice translations of the supercell, twelve
    in all; a [PermuteIterator] holds the two indices, and the translation
    index runs fastest. *)
Record PermuteIterator : Type := {
  factor_group_index : nat;
  translation_index : Z }.

(** The two operations of the factor group, without translation, and
    [permute_end()]. *)
Definition Identity : PermuteIterator :=
  {| factor_group_index := 0; translation_index := 0 |}.

Definition Mirror : PermuteIterator :=
  {| factor_group_index := 1; translation_index := 0 |}.

Definition PastTheEnd : PermuteIterator :=
  {| factor_group_index := 2; translation_index := 0 |}.

Definition transformation_matrix : matrix_type := diag 6 1 1.

Definition bring_within_f (bijk : UnitCellCoord) : UnitCellCoord :=
  match LatticePointWithin.make transformation_matrix with
  | Constructed f => LatticePointWithin.call_bijk f bijk
  | Thrown _ => bijk
  end.

Definition mirror_site (s : UnitCellCoord) : UnitCellCoord :=
  {| sublat := sublat s;
     unitcell := Vec3 (5 - vx (unitcell s)) (vy (unitcell s)) (vz (unitcell s)) |}.

(** The operation of the factor group, then the translation. *)
Definition copy_apply (it : PermuteIterator) (e : IntegralCluster)
    : IntegralCluster :=
  let image :=
    match factor_group_index it with
    | 1%nat => map mirror_site e
    | _ => e
    end in
  plus image (Vec3 (translation_index it) 0 0).

(** A mirror followed by a translation undoes itself; a translation is
    undone by the translation that completes it to the length of the
    chain. *)
Definition inverse (it : PermuteIterator) : PermuteIterator :=
  match factor_group_index it with
  | 1%nat => it
  | _ => {| factor_group_index := factor_group_index it;
            translation_index := (6 - translation_index it) mod 6 |}
  end.

(** [ScelPeriodicSymCompare<IntegralCluster>], as both search classes
    construct it from their supercell. *)
Definition m_sym_compare : ClusterSymCompare.SymCompare IntegralCluster :=
  ClusterSymCompare.sym_compare (ClusterSymCompare.ScelPeriodic bring_within_f).

Definition prepare (e : IntegralCluster) : IntegralCluster :=
  fst (ClusterSymCompare.prepare m_sym_compare (Vec3 0 0 0) e).

Definition compare (A B : IntegralCluster) : bool :=
  ClusterSymCompare.compare_impl m_sym_compare A B.

(** The full permutation range of the supercell: from [permute_begin()],
    the identity without translation, up to [permute_end()]. *)
Definition permutations : list PermuteIterator :=
  flat_map (fun fg =>
              map (fun t => {| factor_group_index := fg; translation_index := t |})
                  [0; 1; 2; 3; 4; 5])
           [0%nat; 1%nat].

Definition scel : ScelOrbitGeneration.Supercell PermuteIterator :=
  {| ScelOrbitGeneration.permute_range := permutations;
     ScelOrbitGeneration.permute_end := PastTheEnd |}.

Definition generator : ScelOrbitGeneration.ScelCanonicalGenerator PermuteIterator :=
  {| ScelOrbitGeneration.m_scel := scel;
     ScelOrbitGeneration.m_to_canonical := PastTheEnd |}.

Definition site_at (i : Z) : UnitCellCoord :=
  {| sublat := 0; unitcell := Vec3 i 0 0 |}.

(** The two-site cluster on the cells 3 and 0, in this order: it is not
    sorted, its prepared form is the cluster on 0 and 3. *)
Definition cluster_3_0 : IntegralCluster := [site_at 3; site_at 0].

(** The two-site cluster on the cells 2 and 5: it is prepared, and it is
    the greater of its two images under the factor group alone. *)
Definition cluster_2_5 : IntegralCluster := [site_at 2; site_at 5].

(** The two-site cluster on the cells 8 and 11: it lies outside the
    supercell, its prepared form is the cluster on 2 and 5. *)
Definition cluster_8_11 : IntegralCluster := [site_at 8; site_at 11].

(** The two-site cluster on the cells 5 and 8: it is prepared, and it is
    the greatest prepared image under the twelve permutations. *)
Definition cluster_5_8 : IntegralCluster := [site_at 5; site_at 8].
End MirrorChain.

(** ** [Kinetics::DiffTransConfiguration] *)

Module DiffTransConfiguration.
Section DiffTrans.
Context {Configuration DiffusionTransformation PermuteIterator : Type}.

(** The collaborators, none of which is part of the sources at hand:
    [ScelPeriodicDiffTransSymCompare::prepare] for the supercell of the
    configuration, [copy_apply(it.sym_op(), diff_trans)], [operator==] and
    [operator>] of [DiffusionTransformation], [reverse()],
    [copy_apply(it, config)] and [operator<] of [Configuration]. *)
Variable prepare : DiffusionTransformation -> DiffusionTransformation.
Variable dt_copy_apply :
  PermuteIterator -> DiffusionTransformation -> DiffusionTransformation.
Variable dt_eq : DiffusionTransformation -> DiffusionTransformation -> bool.
Variable dt_gt : DiffusionTransformation -> DiffusionTransformation -> bool.
Variable reverse : DiffusionTransformation -> DiffusionTransformation.
Variable config_copy_apply : PermuteIterator -> Configuration -> Configuration.
Variable config_lt : Configuration -> Configuration -> bool.

Record DiffTransConfiguration : Type := {
  m_diff_trans : DiffusionTransformation;
  m_from_config : Configuration }.

(** [to_config()] and [operator>] of [DiffTransConfiguration], not part of
    the sources at hand either. *)
Variable to_config : DiffTransConfiguration -> Configuration.
Variable dtc_gt : DiffTransConfiguration -> DiffTransConfiguration -> bool.

(** The constructor: the diffusion transformation is stored prepared. *)
Definition make (_from_config : Configuration)
    (_diff_trans : DiffusionTransformation) : DiffTransConfiguration :=
  {| m_diff_trans := prepare _diff_trans; m_from_config := _from_config |}.

(** [sort()]: "sort DiffTransConfiguration in place". *)
Definition sort (this : DiffTransConfiguration) : DiffTransConfiguration :=
  let to := to_config this in
  if config_lt to (m_from_config this)
  then {| m_diff_trans := reverse (m_diff_trans this); m_from_config := to |}
  else this.

(** [sorted()]: a copy, sorted. *)
Definition sorted (this : DiffTransConfiguration) : DiffTransConfiguration :=
  sort this.

Definition is_sorted (this : DiffTransConfiguration) : bool :=
  let to := to_config this in
  config_lt (m_from_config this) to.

(** The first loop of [to_canonical()]: the state is [greatest] and
    [checklist]. *)
Fixpoint checklist_loop (diff_trans : DiffusionTransformation)
    (range : list PermuteIterator) (greatest : DiffusionTransformation)
    (checklist : list PermuteIterator)
    : DiffusionTransformation * list PermuteIterator :=
  match range with
  | [] => (greatest, checklist)
  | it :: range' =>
      let tmp := prepare (dt_copy_apply it diff_trans) in
      if dt_eq tmp greatest
      then checklist_loop diff_trans range' greatest (checklist ++ [it])
      else if dt_gt tmp greatest
      then checklist_loop diff_trans range' tmp [it]
      else checklist_loop diff_trans range' greatest checklist
  end.

(** The second loop of [to_canonical()]: the state is [max_dtc] and
    [canon_op_it]. *)
Fixpoint canon_loop (from_sorted : Configuration)
    (greatest : DiffusionTransformation) (checklist : list PermuteIterator)
    (max_dtc : DiffTransConfiguration) (canon_op_it : PermuteIterator)
    : PermuteIterator :=
  match checklist with
  | [] => canon_op_it
  | it :: checklist' =>
      let tmp := config_copy_apply it from_sorted in
      let dtc_tmp := make tmp greatest in
      if dtc_gt dtc_tmp max_dtc
      then canon_loop from_sorted greatest checklist' (sorted dtc_tmp) it
      else canon_loop from_sorted greatest checklist' max_dtc canon_op_it
  end.

(** [to_canonical()] over the permutations of the supercell of the
    configuration.  [auto it = checklist.begin()] is dereferenced at once:
    with an empty checklist that is undefined, and the model has no result.
    What is written to [std::cout] is left out. *)
Definition to_canonical (permute_range : list PermuteIterator)
    (this : DiffTransConfiguration) : option PermuteIterator :=
  let '(greatest, checklist) :=
    checklist_loop (m_diff_trans this) permute_range
      (prepare (m_diff_trans this)) [] in
  match checklist with
  | [] => None
  | first :: rest =>
      let from_sorted := m_from_config (sorted this) in
      let max_dtc := sort (make (config_copy_apply first from_sorted) greatest) in
      Some (canon_loop from_sorted greatest rest max_dtc first)
  end.

(** What the first loop of [to_canonical()] leaves in [greatest]. *)
Definition greatest_image (permute_range : list PermuteIterator)
    (this : DiffTransConfiguration) : DiffusionTransformation :=
  fst (checklist_loop (m_diff_trans this) permute_range
         (prepare (m_diff_trans this)) []).
End DiffTrans.
Arguments DiffTransConfiguration : clear implicits.
End DiffTransConfiguration.

(** ** Hops on a line, to run [DiffTransConfiguration] on

    A configuration is the cell of the chain that holds a particle, a
    diffusion transformation the length of its hop; the mirror turns the hop
    round, a translation moves the particle along the chain and leaves the
    hop as it is. *)

Module LineHops.
Local Open Scope Z_scope.

Definition Configuration : Type := Z.
Definition DiffusionTransformation : Type := Z.

Definition prepare (hop : DiffusionTransformation) : DiffusionTransformation := hop.

Definition dt_copy_apply (it : MirrorChain.PermuteIterator)
    (hop : DiffusionTransformation) : DiffusionTransformation :=
  match MirrorChain.factor_group_index it with
  | 1%nat => - hop
  | _ => hop
  end.

Definition reverse (hop : DiffusionTransformation) : DiffusionTransformation := - hop.

Definition config_copy_apply (it : MirrorChain.PermuteIterator)
    (config : Configuration) : Configuration :=
  let image :=
    match MirrorChain.factor_group_index it with
    | 1%nat => 5 - config
    | _ => config
    end in
  (image + MirrorChain.translation_index it) mod 6.

Definition DTC : Type :=
  DiffTransConfiguration.DiffTransConfiguration Configuration DiffusionTransformation.

Definition to_config (dtc : DTC) : Configuration :=
  DiffTransConfiguration.m_from_config dtc + DiffTransConfiguration.m_diff_trans dtc.

Definition dtc_gt (A B : DTC) : bool :=
  DiffTransConfiguration.m_from_config B <? DiffTransConfiguration.m_from_config A.

Definition hop_3_to_1 : DTC :=
  {| DiffTransConfiguration.m_diff_trans := -2;
     DiffTransConfiguration.m_from_config := 3 |}.
End LineHops.

(** ** The supercell [T = diag(2,2,2)] of the end-to-end scenario *)

Module Cube.
Import Eigen.
Local Open Scope Z_scope.

Definition transformation_matrix : matrix_type := diag 2 2 2.

Definition bring_within_f : LatticePointWithin.LatticePointWithin_f :=
  {| LatticePointWithin.m_transformation_matrix := transformation_matrix;
     LatticePointWithin.m_transformation_matrix_adjugate := diag 4 4 4;
     LatticePointWithin.m_total_lattice_points_in_superlattice := 8 |}.

(** The matrix is diagonal already: [T = I * T * I]. *)
Definition smith_normal_form : OrderedLatticePoint.smith_normal_form_type :=
  fun T => (Identity, T, Identity).

Definition generator : OrderedLatticePoint.OrderedLatticePointGenerator :=
  {| OrderedLatticePoint.m_total_lattice_points := 8;
     OrderedLatticePoint.m_bring_within_f := bring_within_f;
     OrderedLatticePoint.m_smith_normal_U := Identity;
     OrderedLatticePoint.m_smith_normal_S := transformation_matrix;
     OrderedLatticePoint.m_smith_normal_V := Identity;
     OrderedLatticePoint.m_stride := (2, 4) |}.
End Cube.

(** * Properties *)

Module LatticePointWithinFacts.
Import Eigen LatticePointWithin.
Local Open Scope Z_scope.

Lemma adjugate_mat_vec (T : matrix_type) (x : vector_type) :
  mat_vec (adjugate T) (mat_vec T x) = vec_scale (determinant T) x.
Proof.
  destruct T, x; unfold mat_vec, adjugate, vec_scale, determinant; simpl.
  f_equal; ring.
Qed.

Lemma mat_vec_adjugate (T : matrix_type) (x : vector_type) :
  mat_vec T (mat_vec (adjugate T) x) = vec_scale (determinant T) x.
Proof.
  destruct T, x; unfold mat_vec, adjugate, vec_scale, determinant; simpl.
  f_equal; ring.
Qed.

Lemma mat_vec_add (M : matrix_type) (a b : vector_type) :
  mat_vec M (vec_add a b) = vec_add (mat_vec M a) (mat_vec M b).
Proof.
  destruct M, a, b; unfold mat_vec, vec_add; simpl. f_equal; ring.
Qed.

Lemma vec_mod_add_scale (a k : vector_type) (d : Z) :
  vec_mod (vec_add a (vec_scale d k)) d = vec_mod a d.
Proof.
  destruct a, k; unfold vec_mod, vec_add, vec_scale; simpl.
  f_equal; rewrite (Z.mul_comm d); apply Z_mod_plus_full.
Qed.

Lemma make_inv (T : matrix_type) (f : LatticePointWithin_f) :
  make T = Constructed f ->
  determinant T <> 0 /\
  m_transformation_matrix f = T /\
  m_transformation_matrix_adjugate f = adjugate T /\
  m_total_lattice_points_in_superlattice f = determinant T.
Proof.
  unfold make, _throw_if_bad_transformation_matrix; simpl.
  destruct (Z.eqb_spec (determinant T) 0) as [E|E]; simpl; [discriminate|].
  intros [= <-]; simpl. auto.
Qed.

(** C5.  Periodicity of the reduction: for a transformation matrix [T]
    with a non-zero determinant (the functor [f] was constructed from it),
    every lattice point [x] and every integer vector [k], reducing
    [x + T*k] gives the same point as reducing [x]. *)
Theorem call_periodic (T : matrix_type) (f : LatticePointWithin_f)
    (x k : vector_type) :
  determinant T <> 0 ->
  make T = Constructed f ->
  call f (vec_add x (mat_vec T k)) = call f x.
Proof.
  intros _ Hf. destruct (make_inv _ _ Hf) as (_ & HT & HA & HD).
  unfold call. rewrite HT, HA, HD.
  rewrite mat_vec_add, adjugate_mat_vec, vec_mod_add_scale. reflexivity.
Qed.

(** The end-to-end scenario: within [T = diag(2,2,2)] the point (2,0,0)
    reduces to (0,0,0) and the point (-1,0,0) to (1,0,0). *)
Example cube_reduces_2_0_0 :
  call Cube.bring_within_f (Vec3 2 0 0) = Vec3 0 0 0.
Proof. reflexivity. Qed.

Example cube_reduces_m1_0_0 :
  call Cube.bring_within_f (Vec3 (-1) 0 0) = Vec3 1 0 0.
Proof. reflexivity. Qed.

Lemma call_periodic_witness :
  determinant Cube.transformation_matrix <> 0 /\
  make Cube.transformation_matrix = Constructed Cube.bring_within_f /\
  call Cube.bring_within_f
    (vec_add (Vec3 (-1) 0 0) (mat_vec Cube.transformation_matrix (Vec3 1 2 3)))
  = call Cube.bring_within_f (Vec3 (-1) 0 0).
Proof.
  assert (Hd : determinant Cube.transformation_matrix <> 0)
    by (vm_compute; discriminate).
  split; [exact Hd|]. split; [reflexivity|].
  apply (call_periodic Cube.transformation_matrix Cube.bring_within_f
           (Vec3 (-1) 0 0) (Vec3 1 2 3) Hd).
  reflexivity.
Defined.
End LatticePointWithinFacts.

Module OrderedLatticePointFacts.
Import Eigen OrderedLatticePoint LatticePointWithinFacts.
Local Open Scope Z_scope.

Lemma mat_vec_sub (M : matrix_type) (a b : vector_type) :
  mat_vec M (vec_sub a b) = vec_sub (mat_vec M a) (mat_vec M b).
Proof.
  destruct M, a, b; unfold mat_vec, vec_sub; simpl. f_equal; ring.
Qed.

Lemma mat_vec_mul (A B : matrix_type) (v : vector_type) :
  mat_vec (mat_mul A B) v = mat_vec A (mat_vec B v).
Proof.
  destruct A, B, v; unfold mat_vec, mat_mul; simpl. f_equal; ring.
Qed.

Lemma determinant_mul (A B : matrix_type) :
  determinant (mat_mul A B) = determinant A * determinant B.
Proof.
  destruct A, B; unfold determinant, mat_mul; simpl. ring.
Qed.

Lemma determinant_diagonal (M : matrix_type) :
  is_diagonal M -> determinant M = m00 M * m11 M * m22 M.
Proof.
  destruct M; unfold is_diagonal, determinant; simpl.
  intros (-> & -> & -> & -> & -> & ->). ring.
Qed.

(** The reduction subtracts a vector of the superlattice. *)
Lemma within_call_eq (T : matrix_type)
    (f : LatticePointWithin.LatticePointWithin_f) (x : vector_type) :
  LatticePointWithin.make T = Constructed f ->
  LatticePointWithin.call f x =
  vec_sub x (mat_vec T (vec_div (mat_vec (adjugate T) x) (determinant T))).
Proof.
  intros Hf. destruct (make_inv _ _ Hf) as (Hd & HT & HA & HD).
  unfold LatticePointWithin.call. rewrite HT, HA, HD.
  set (d := determinant T) in *.
  set (s := mat_vec (adjugate T) x).
  assert (Hs : mat_vec T s = vec_scale d x) by apply mat_vec_adjugate.
  assert (Hm : vec_mod s d = vec_sub s (vec_scale d (vec_div s d))).
  { destruct s as [s0 s1 s2]; unfold vec_mod, vec_sub, vec_scale, vec_div; simpl.
    f_equal; apply Z.mod_eq; exact Hd. }
  rewrite Hm, mat_vec_sub, Hs.
  generalize (vec_div s d); intros q.
  destruct T, x, q; unfold vec_div, vec_sub, vec_scale, mat_vec; simpl.
  f_equal.
  - match goal with |- ?n / _ = ?r => replace n with (r * d) by ring end.
    apply Z.div_mul; exact Hd.
  - match goal with |- ?n / _ = ?r => replace n with (r * d) by ring end.
    apply Z.div_mul; exact Hd.
  - match goal with |- ?n / _ = ?r => replace n with (r * d) by ring end.
    apply Z.div_mul; exact Hd.
Qed.

(** A multiple of a positive extent that is the difference of two digits
    below the extent is zero. *)
Lemma digit_difference (s a b z : Z) :
  0 <= a < s -> 0 <= b < s -> a - b = s * z -> a = b.
Proof. intros Ha Hb H. assert (z = 0) by nia. subst z. lia. Qed.

Lemma unimodular_cancel (d : Z) (a b : vector_type) :
  Z.abs d = 1 -> vec_scale d a = vec_scale d b -> a = b.
Proof.
  intros Hd. destruct a, b; unfold vec_scale; simpl.
  intros [= H0 H1 H2]. f_equal; nia.
Qed.

(** Two points of the Smith normal form box that reduce to the same
    lattice point are the same point. *)
Lemma normalize_injective (T snf_U snf_S snf_V : matrix_type)
    (f : LatticePointWithin.LatticePointWithin_f) (a b : vector_type) :
  is_smith_normal_form T snf_U snf_S snf_V ->
  LatticePointWithin.make T = Constructed f ->
  0 <= vx a < m00 snf_S -> 0 <= vy a < m11 snf_S -> 0 <= vz a < m22 snf_S ->
  0 <= vx b < m00 snf_S -> 0 <= vy b < m11 snf_S -> 0 <= vz b < m22 snf_S ->
  LatticePointWithin.call f (mat_vec snf_U a) =
  LatticePointWithin.call f (mat_vec snf_U b) ->
  a = b.
Proof.
  intros (HT & HU & _ & HS & _) Hf Ha0 Ha1 Ha2 Hb0 Hb1 Hb2 Heq.
  rewrite !(within_call_eq T f) in Heq by exact Hf.
  set (qa := vec_div (mat_vec (adjugate T) (mat_vec snf_U a)) (determinant T)) in Heq.
  set (qb := vec_div (mat_vec (adjugate T) (mat_vec snf_U b)) (determinant T)) in Heq.
  assert (H1 : mat_vec snf_U (vec_sub a b) = mat_vec T (vec_sub qa qb)).
  { rewrite !mat_vec_sub.
    destruct (mat_vec snf_U a), (mat_vec snf_U b), (mat_vec T qa), (mat_vec T qb).
    unfold vec_sub in *; simpl in *. injection Heq as E0 E1 E2. f_equal; lia. }
  rewrite HT, !mat_vec_mul in H1.
  set (z := mat_vec snf_V (vec_sub qa qb)) in H1.
  apply (f_equal (mat_vec (adjugate snf_U))) in H1.
  rewrite !adjugate_mat_vec in H1.
  apply unimodular_cancel in H1; [|exact HU].
  destruct HS as (E01 & E02 & E10 & E12 & E20 & E21).
  destruct a as [a0 a1 a2], b as [b0 b1 b2], z as [z0 z1 z2].
  unfold vec_sub, mat_vec in H1; simpl in *.
  rewrite E01, E02, E10, E12, E20, E21 in H1.
  injection H1 as G0 G1 G2.
  f_equal.
  - apply (digit_difference (m00 snf_S) _ _ z0); [lia | lia | lia].
  - apply (digit_difference (m11 snf_S) _ _ z1); [lia | lia | lia].
  - apply (digit_difference (m22 snf_S) _ _ z2); [lia | lia | lia].
Qed.
(** The digits of a linear index lie within the extents, and give the
    index back: [l = m + n*stride[0] + p*stride[1]]. *)
Lemma mixed_radix_digits (s0 s1 s2 ix : Z) :
  0 < s0 -> 0 < s1 -> 0 < s2 -> 0 <= ix < s0 * s1 * s2 ->
  let m := (ix mod (s0 * s1)) mod s0 in
  let n := (ix mod (s0 * s1)) / s0 in
  let p := ix / (s0 * s1) in
  (0 <= m < s0 /\ 0 <= n < s1 /\ 0 <= p < s2) /\
  ix = m + n * s0 + p * (s0 * s1).
Proof.
  intros H0 H1 H2 Hix m n p.
  assert (H01 : 0 < s0 * s1) by nia.
  pose proof (Z.mod_pos_bound ix (s0 * s1) H01) as Hr.
  pose proof (Z.div_mod ix (s0 * s1) ltac:(lia)) as Eix.
  pose proof (Z.div_mod (ix mod (s0 * s1)) s0 ltac:(lia)) as Er.
  pose proof (Z.mod_pos_bound (ix mod (s0 * s1)) s0 H0) as Hm.
  fold m in Hm, Er. fold n in Er. fold p in Eix.
  assert (Hn : 0 <= n < s1).
  { split.
    - apply Z.div_pos; lia.
    - apply Z.div_lt_upper_bound; lia. }
  assert (Hp : 0 <= p < s2).
  { split.
    - apply Z.div_pos; lia.
    - apply Z.div_lt_upper_bound; lia. }
  repeat split; try lia.
Qed.

Lemma make_inv_generator (snf : smith_normal_form_type) (T : matrix_type)
    (g : OrderedLatticePointGenerator) :
  make snf T = Constructed g ->
  exists f,
    LatticePointWithin.make T = Constructed f /\
    m_bring_within_f g = f /\
    m_total_lattice_points g = Z.abs (determinant T) /\
    m_smith_normal_U g = fst (fst (snf T)) /\
    m_stride g = (m00 (snd (fst (snf T))),
                  m00 (snd (fst (snf T))) * m11 (snd (fst (snf T)))).
Proof.
  unfold make. destruct (LatticePointWithin.make T) as [f|e]; simpl; [|discriminate].
  destruct (snf T) as [[snf_U snf_S] snf_V]; simpl.
  intros [= <-]; simpl. exists f. auto.
Qed.

Lemma size_is_product (T snf_U snf_S snf_V : matrix_type) :
  is_smith_normal_form T snf_U snf_S snf_V ->
  Z.abs (determinant T) = m00 snf_S * m11 snf_S * m22 snf_S.
Proof.
  intros (HT & HU & HV & HS & H0 & H1 & H2).
  rewrite HT, !determinant_mul, !Z.abs_mul, HU, HV.
  rewrite (determinant_diagonal _ HS), !Z.abs_mul.
  rewrite !Z.abs_eq by lia. ring.
Qed.

Lemma call_injective (snf : smith_normal_form_type)
    (T snf_U snf_S snf_V : matrix_type) (g : OrderedLatticePointGenerator)
    (i j : Z) :
  snf T = (snf_U, snf_S, snf_V) ->
  is_smith_normal_form T snf_U snf_S snf_V ->
  make snf T = Constructed g ->
  0 <= i < size g -> 0 <= j < size g ->
  call g i = call g j -> i = j.
Proof.
  intros Hsnf Hnf Hg Hi Hj Heq.
  destruct (make_inv_generator _ _ _ Hg) as (f & Hf & Hw & Hn & HU & Hst).
  rewrite Hsnf in HU, Hst; simpl in HU, Hst.
  unfold size in Hi, Hj. rewrite Hn, (size_is_product _ _ _ _ Hnf) in Hi, Hj.
  pose proof Hnf as (_ & _ & _ & _ & H0 & H1 & H2).
  destruct (mixed_radix_digits _ _ _ i H0 H1 H2 Hi) as ((Bi0 & Bi1 & Bi2) & Ei).
  destruct (mixed_radix_digits _ _ _ j H0 H1 H2 Hj) as ((Bj0 & Bj1 & Bj2) & Ej).
  unfold call, _normalize_lattice_point, _make_smith_normal_form_lattice_point in Heq.
  rewrite Hw, HU, Hst in Heq; simpl in Heq.
  apply (normalize_injective T snf_U snf_S snf_V f) in Heq;
    [| assumption | assumption | simpl; assumption ..].
  injection Heq as E0 E1 E2.
  rewrite Ei, Ej, E0, E1, E2. reflexivity.
Qed.

Lemma indices_spec (n i : Z) : In i (indices n) <-> 0 <= i < n.
Proof.
  unfold indices. rewrite in_map_iff. split.
  - intros (k & <- & Hk). apply in_seq in Hk. lia.
  - intros Hi. exists (Z.to_nat i). split; [lia|]. apply in_seq. lia.
Qed.

Lemma indices_NoDup (n : Z) : List.NoDup (indices n).
Proof.
  unfold indices. apply NoDup_map_NoDup_ForallPairs.
  - intros a b _ _. apply Nat2Z.inj.
  - apply seq_NoDup.
Qed.

Lemma indices_length (n : Z) : 0 <= n -> Z.of_nat (length (indices n)) = n.
Proof.
  intros Hn. unfold indices. rewrite length_map, length_seq. lia.
Qed.

(** C7.  For a transformation matrix [T] with a non-zero determinant and
    its Smith normal form, the generator's [size()] is [|det(T)|], and the
    lattice points it produces over the indices [0 <= ix < size()] are
    pairwise distinct: their number is [size()]. *)
Theorem size_counts_distinct_lattice_points (snf : smith_normal_form_type)
    (T snf_U snf_S snf_V : matrix_type) (g : OrderedLatticePointGenerator) :
  determinant T <> 0 ->
  snf T = (snf_U, snf_S, snf_V) ->
  is_smith_normal_form T snf_U snf_S snf_V ->
  make snf T = Constructed g ->
  size g = Z.abs (determinant T) /\
  Z.of_nat (length (nodup vector_eq_dec (make_lattice_points g))) = size g.
Proof.
  intros _ Hsnf Hnf Hg.
  destruct (make_inv_generator _ _ _ Hg) as (f & _ & _ & Hn & _).
  split; [exact Hn|].
  assert (Hnd : List.NoDup (make_lattice_points g)).
  { unfold make_lattice_points.
    apply NoDup_map_NoDup_ForallPairs; [|apply indices_NoDup].
    intros i j Hi Hj Heq. apply indices_spec in Hi, Hj.
    exact (call_injective snf T snf_U snf_S snf_V g i j Hsnf Hnf Hg Hi Hj Heq). }
  rewrite (nodup_fixed_point vector_eq_dec Hnd).
  unfold make_lattice_points. rewrite length_map.
  apply indices_length. unfold size. rewrite Hn. apply Z.abs_nonneg.
Qed.

(** C6.  Constructing a [LatticePointWithin_f], or an
    [OrderedLatticePointGenerator], which constructs one as a member,
    throws exactly when the determinant of the transformation matrix is 0,
    and gives the object exactly when it is not. *)
Theorem construction_throws_iff_singular (snf : smith_normal_form_type)
    (T : matrix_type) :
  (determinant T = 0 <-> exists e, LatticePointWithin.make T = Thrown e) /\
  (determinant T <> 0 <-> exists f, LatticePointWithin.make T = Constructed f) /\
  (determinant T = 0 <-> exists e, make snf T = Thrown e) /\
  (determinant T <> 0 <-> exists g, make snf T = Constructed g).
Proof.
  unfold make, LatticePointWithin.make,
    LatticePointWithin._throw_if_bad_transformation_matrix; simpl.
  destruct (snf T) as [[snf_U snf_S] snf_V].
  destruct (Z.eqb_spec (determinant T) 0) as [E|E]; simpl.
  - split; [|split; [|split]].
    + split; [eauto | intros _; exact E].
    + split; [contradiction | intros [f Hf]; discriminate].
    + split; [eauto | intros _; exact E].
    + split; [contradiction | intros [g Hg]; discriminate].
  - split; [|split; [|split]].
    + split; [contradiction | intros [e He]; discriminate].
    + split; [eauto | intros _; exact E].
    + split; [contradiction | intros [e He]; discriminate].
    + split; [eauto | intros _; exact E].
Qed.

(** The end-to-end scenario: the eight points of [T = diag(2,2,2)]. *)
Example cube_lattice_points :
  make_lattice_points Cube.generator =
  [Vec3 0 0 0; Vec3 1 0 0; Vec3 0 1 0; Vec3 1 1 0;
   Vec3 0 0 1; Vec3 1 0 1; Vec3 0 1 1; Vec3 1 1 1].
Proof. reflexivity. Qed.

Lemma size_counts_distinct_lattice_points_witness :
  determinant Cube.transformation_matrix <> 0 /\
  is_smith_normal_form Cube.transformation_matrix
    Identity Cube.transformation_matrix Identity /\
  make Cube.smith_normal_form Cube.transformation_matrix
    = Constructed Cube.generator /\
  size Cube.generator = Z.abs (determinant Cube.transformation_matrix) /\
  Z.of_nat (length (nodup vector_eq_dec (make_lattice_points Cube.generator)))
    = size Cube.generator.
Proof.
  assert (Hd : determinant Cube.transformation_matrix <> 0)
    by (vm_compute; discriminate).
  assert (Hnf : is_smith_normal_form Cube.transformation_matrix
                  Identity Cube.transformation_matrix Identity)
    by (vm_compute; repeat split; reflexivity).
  split; [exact Hd|]. split; [exact Hnf|]. split; [reflexivity|].
  apply (size_counts_distinct_lattice_points Cube.smith_normal_form
           Cube.transformation_matrix Identity Cube.transformation_matrix
           Identity Cube.generator Hd); [reflexivity | exact Hnf | reflexivity].
Defined.
End OrderedLatticePointFacts.

(** ** The order on clusters is a strict weak order *)

Module ClusterFacts.
Import xtal Cluster.

Section Lexicographic.
Context {A : Type} (ltb : A -> A -> bool).
Hypothesis ltb_irreflexive : irreflexive ltb.
Hypothesis ltb_transitive : transitive ltb.
Hypothesis ltb_negatively_transitive : negatively_transitive ltb.

Lemma lex_ltb_irreflexive : irreflexive (lex_ltb ltb).
Proof.
  intros a. induction a as [|x a IH]; simpl; [reflexivity|].
  rewrite !(ltb_irreflexive x). exact IH.
Qed.

Lemma lex_ltb_transitive : transitive (lex_ltb ltb).
Proof.
  intros a. induction a as [|x a IH]; intros [|y b] [|z c]; simpl;
    try congruence.
  destruct (ltb x y) eqn:Exy.
  - intros _. destruct (ltb y z) eqn:Eyz.
    + intros _. rewrite (ltb_transitive _ _ _ Exy Eyz). reflexivity.
    + destruct (ltb z y) eqn:Ezy; [discriminate|]. intros _.
      destruct (ltb x z) eqn:Exz; [reflexivity|].
      rewrite (ltb_negatively_transitive _ _ _ Exz Ezy) in Exy. discriminate.
  - destruct (ltb y x) eqn:Eyx; [discriminate|]. intros Hab.
    destruct (ltb y z) eqn:Eyz.
    + intros _. destruct (ltb x z) eqn:Exz; [reflexivity|].
      rewrite (ltb_negatively_transitive _ _ _ Eyx Exz) in Eyz. discriminate.
    + destruct (ltb z y) eqn:Ezy; [discriminate|]. intros Hbc.
      rewrite (ltb_negatively_transitive _ _ _ Exy Eyz).
      rewrite (ltb_negatively_transitive _ _ _ Ezy Eyx).
      exact (IH _ _ Hab Hbc).
Qed.

Lemma lex_ltb_negatively_transitive : negatively_transitive (lex_ltb ltb).
Proof.
  intros a. induction a as [|x a IH]; intros [|y b] [|z c]; simpl;
    try congruence.
  destruct (ltb x y) eqn:Exy; [discriminate|].
  destruct (ltb y x) eqn:Eyx.
  - intros _. destruct (ltb y z) eqn:Eyz; [discriminate|].
    destruct (ltb z y) eqn:Ezy.
    + intros _. rewrite (ltb_negatively_transitive _ _ _ Exy Eyz).
      rewrite (ltb_transitive _ _ _ Ezy Eyx). reflexivity.
    + intros _. rewrite (ltb_negatively_transitive _ _ _ Exy Eyz).
      destruct (ltb z x) eqn:Ezx; [reflexivity|].
      rewrite (ltb_negatively_transitive _ _ _ Eyz Ezx) in Eyx. discriminate.
  - intros Hab. destruct (ltb y z) eqn:Eyz; [discriminate|].
    rewrite (ltb_negatively_transitive _ _ _ Exy Eyz).
    destruct (ltb z y) eqn:Ezy.
    + intros _. destruct (ltb z x) eqn:Ezx; [reflexivity|].
      rewrite (ltb_negatively_transitive _ _ _ Ezx Exy) in Ezy. discriminate.
    + intros Hbc. rewrite (ltb_negatively_transitive _ _ _ Ezy Eyx).
      exact (IH _ _ Hab Hbc).
Qed.
End Lexicographic.

Lemma Z_ltb_irreflexive : irreflexive Z.ltb.
Proof. intros a. apply Z.ltb_irrefl. Qed.

Lemma Z_ltb_transitive : transitive Z.ltb.
Proof. intros a b c. rewrite !Z.ltb_lt. lia. Qed.

Lemma Z_ltb_negatively_transitive : negatively_transitive Z.ltb.
Proof. intros a b c. rewrite !Z.ltb_ge. lia. Qed.

Lemma ucc_ltb_irreflexive : irreflexive ucc_ltb.
Proof. intros a. apply lex_ltb_irreflexive, Z_ltb_irreflexive. Qed.

Lemma ucc_ltb_transitive : transitive ucc_ltb.
Proof.
  intros a b c. apply lex_ltb_transitive;
    auto using Z_ltb_transitive, Z_ltb_negatively_transitive.
Qed.

Lemma ucc_ltb_negatively_transitive : negatively_transitive ucc_ltb.
Proof.
  intros a b c. apply lex_ltb_negatively_transitive;
    auto using Z_ltb_transitive, Z_ltb_negatively_transitive.
Qed.

Lemma cluster_less_irreflexive : irreflexive (less (Element := IntegralCluster)).
Proof. intros a. apply lex_ltb_irreflexive, ucc_ltb_irreflexive. Qed.

Lemma cluster_less_transitive : transitive (less (Element := IntegralCluster)).
Proof.
  intros a b c. apply lex_ltb_transitive;
    auto using ucc_ltb_transitive, ucc_ltb_negatively_transitive.
Qed.

Lemma cluster_less_negatively_transitive :
  negatively_transitive (less (Element := IntegralCluster)).
Proof.
  intros a b c. apply lex_ltb_negatively_transitive;
    auto using ucc_ltb_transitive, ucc_ltb_negatively_transitive.
Qed.

#[export] Instance IntegralCluster_laws : ClusterElementLaws IntegralCluster.
Proof. split. intros [|s obj]; [reflexivity | discriminate]. Qed.
End ClusterFacts.

(** ** The canonical-form search *)

Module ScelOrbitGenerationFacts.
Import ScelOrbitGeneration.

Section SearchFacts.
Context {Element PermuteIterator : Type}.
Variable prepare : Element -> Element.
Variable compare : Element -> Element -> bool.
Variable copy_apply : PermuteIterator -> Element -> Element.
Variable inverse : PermuteIterator -> PermuteIterator.

Local Abbreviation test e op := (prepare (copy_apply op e)).
Local Abbreviation loop := (canonical_loop prepare compare copy_apply).

Lemma none_of_spec {A : Type} (pred : A -> bool) (range : list A) :
  none_of pred range = true <-> forall x, In x range -> pred x = false.
Proof.
  induction range as [|x range IH]; simpl.
  - split; [intros _ x [] | reflexivity].
  - destruct (pred x) eqn:Ex.
    + split; [discriminate|]. intros H.
      rewrite (H x) in Ex by (left; reflexivity). discriminate.
    + rewrite IH. split.
      * intros H y [<-|Hy]; [exact Ex | exact (H y Hy)].
      * intros H y Hy. apply H. right; exact Hy.
Qed.

(** When no image is greater than [result], the loop leaves its state
    as it is. *)
Lemma canonical_loop_fixed (e : Element) (range : list PermuteIterator)
    (result : Element) (to : PermuteIterator) :
  (forall op, In op range -> compare result (test e op) = false) ->
  loop e range result to = (result, to).
Proof.
  induction range as [|it range IH]; simpl; intros H; [reflexivity|].
  rewrite (H it) by (left; reflexivity).
  apply IH. intros op Hop. apply H. right; exact Hop.
Qed.

(** The loop tracks an operation that produces its result. *)
Lemma canonical_loop_tracks (e : Element) (range : list PermuteIterator) :
  irreflexive compare ->
  forall (result : Element) (to : PermuteIterator),
  equal compare (test e to) result = true ->
  equal compare (test e (snd (loop e range result to)))
                (fst (loop e range result to)) = true.
Proof.
  intros Hirr. induction range as [|it range IH]; simpl; intros result to H.
  - exact H.
  - destruct (compare result (test e it)).
    + apply IH. unfold equal. rewrite Hirr. reflexivity.
    + apply IH. exact H.
Qed.

Section StrictOrder.
Hypothesis compare_irreflexive : irreflexive compare.
Hypothesis compare_transitive : transitive compare.

(** The result of the loop is [result] or an image, it is not below
    [result], and no image of the range is greater. *)
Lemma canonical_loop_maximal (e : Element) (range : list PermuteIterator) :
  forall (result : Element) (to : PermuteIterator),
  let r := fst (loop e range result to) in
  (r = result \/ exists op, In op range /\ r = test e op) /\
  (r = result \/ compare result r = true) /\
  (forall op, In op range -> compare r (test e op) = false).
Proof.
  induction range as [|it range IH]; simpl; intros result to.
  - split; [left; reflexivity|]. split; [left; reflexivity|]. intros op [].
  - destruct (compare result (test e it)) eqn:Ecmp.
    + destruct (IH (test e it) it) as (Hwhich & Hup & Hmax).
      set (r := fst (loop e range (test e it) it)) in *.
      assert (Hresult : compare result r = true).
      { destruct Hup as [-> | Hup]; [exact Ecmp|].
        exact (compare_transitive _ _ _ Ecmp Hup). }
      split; [|split].
      * right. destruct Hwhich as [-> | (op & Hop & ->)].
        -- exists it. split; [left; reflexivity | reflexivity].
        -- exists op. split; [right; exact Hop | reflexivity].
      * right. exact Hresult.
      * intros op [<- | Hop]; [|exact (Hmax op Hop)].
        destruct Hup as [-> | Hup]; [apply compare_irreflexive|].
        destruct (compare r (test e it)) eqn:Eback; [|reflexivity].
        pose proof (compare_transitive _ _ _ Hup Eback) as Habs.
        rewrite compare_irreflexive in Habs. discriminate.
    + destruct (IH result to) as (Hwhich & Hup & Hmax).
      set (r := fst (loop e range result to)) in *.
      split; [|split].
      * destruct Hwhich as [-> | (op & Hop & ->)]; [left; reflexivity|].
        right. exists op. split; [right; exact Hop | reflexivity].
      * exact Hup.
      * intros op [<- | Hop]; [|exact (Hmax op Hop)].
        destruct Hup as [-> | Hup]; [exact Ecmp|].
        destruct (compare r (test e it)) eqn:Eback; [|reflexivity].
        rewrite (compare_transitive _ _ _ Hup Eback) in Ecmp. discriminate.
Qed.
End StrictOrder.

Abbreviation generator_type := (ScelCanonicalGenerator PermuteIterator).

(** C2.  For a comparator that is a strict order, the element that
    [ScelCanonicalGenerator::operator()] returns over the full range of
    the supercell is [prepare(e)] or the prepared image of [e] under an
    operation of the range, and no prepared image of [e] under an
    operation of the range is greater. *)
Theorem generate_maximal (gen : generator_type) (e : Element) :
  irreflexive compare ->
  transitive compare ->
  let C := fst (generate prepare compare copy_apply gen e) in
  (C = prepare e \/
   exists op, In op (permute_range (supercell gen)) /\ C = test e op) /\
  (forall op, In op (permute_range (supercell gen)) ->
              compare C (test e op) = false).
Proof.
  intros Hirr Htrans. unfold generate.
  pose proof (canonical_loop_maximal Hirr Htrans e
                (permute_range (supercell gen)) (prepare e)
                (permute_begin (supercell gen))) as (Hwhich & _ & Hmax).
  destruct (loop e (permute_range (supercell gen)) (prepare e)
              (permute_begin (supercell gen))) as [r best]; simpl in *.
  split; assumption.
Qed.

(** C1, as the code has it.  For a comparator that is a strict weak
    order and an element [e] that is already prepared, the test of
    [ScelIsCanonical] over the full range of the supercell holds exactly
    when the element returned by [ScelCanonicalGenerator] is equal, for
    the comparator, to [prepare(e)]. *)
Theorem is_canonical_agrees_on_prepared (gen : generator_type) (e : Element) :
  irreflexive compare ->
  transitive compare ->
  negatively_transitive compare ->
  prepare e = e ->
  is_canonical prepare compare copy_apply (supercell gen) e = true <->
  equal compare (fst (generate prepare compare copy_apply gen e)) (prepare e)
    = true.
Proof.
  intros Hirr Htrans Hneg Hprepared.
  unfold is_canonical, is_canonical_range. rewrite none_of_spec.
  unfold less_than, generate.
  set (range := permute_range (supercell gen)).
  set (it := permute_begin (supercell gen)).
  split.
  - intros Hnone.
    rewrite (canonical_loop_fixed e range (prepare e) it).
    + simpl. unfold equal. rewrite Hirr. reflexivity.
    + intros op Hop. rewrite Hprepared. exact (Hnone op Hop).
  - pose proof (canonical_loop_maximal Hirr Htrans e range (prepare e) it)
      as (_ & _ & Hmax).
    destruct (loop e range (prepare e) it) as [r best]; simpl in *.
    unfold equal. intros Heq op Hop.
    apply andb_true_iff in Heq as [_ Hpr]. apply negb_true_iff in Hpr.
    rewrite Hprepared in Hpr.
    exact (Hneg _ _ _ Hpr (Hmax op Hop)).
Qed.

(** C3, as the code has it.  [ScelIsCanonical::operator()] over a range
    returns [true] exactly when no operation [op] of the range satisfies
    [compare(e, prepare(copy_apply(op, e)))], with the element [e] as it
    was passed in; the overload without a range runs the same test over
    the full range of the supercell.  For an element that is already
    prepared this is the test against its own prepared image. *)
Theorem is_canonical_range_spec (scel : Supercell PermuteIterator)
    (e : Element) (range : list PermuteIterator) :
  (is_canonical_range prepare compare copy_apply e range = true <->
   forall op, In op range -> compare e (test e op) = false) /\
  is_canonical prepare compare copy_apply scel e =
  is_canonical_range prepare compare copy_apply e (permute_range scel) /\
  (prepare e = e ->
   (is_canonical_range prepare compare copy_apply e range = true <->
    forall op, In op range -> compare (prepare e) (test e op) = false)).
Proof.
  assert (Hraw : is_canonical_range prepare compare copy_apply e range = true <->
                 forall op, In op range -> compare e (test e op) = false).
  { unfold is_canonical_range. rewrite none_of_spec. reflexivity. }
  split; [exact Hraw|]. split; [reflexivity|].
  intros Hprepared. rewrite Hprepared. exact Hraw.
Qed.

(** The loop leaves its state as it found it, or it ends on an operation
    together with the prepared image under that operation. *)
Lemma canonical_loop_state (e : Element) (range : list PermuteIterator) :
  forall (result : Element) (to : PermuteIterator),
  loop e range result to = (result, to) \/
  fst (loop e range result to) = test e (snd (loop e range result to)).
Proof.
  induction range as [|it range IH]; simpl; intros result to.
  - left; reflexivity.
  - destruct (compare result (test e it)).
    + right. destruct (IH (test e it) it) as [-> | Htrack];
        [reflexivity | exact Htrack].
    + apply IH.
Qed.

(** What [to_canonical()] reaches, from the state in which the loop ends. *)
Lemma canonical_loop_reaches (e : Element) (first : PermuteIterator)
    (range : list PermuteIterator) (C : Element) (best : PermuteIterator) :
  irreflexive compare ->
  loop e range (prepare e) first = (C, best) ->
  equal compare (test e best) C = true <->
  ~ (C = prepare e /\ best = first) \/
  equal compare (test e first) (prepare e) = true.
Proof.
  intros Hirr Hloop.
  assert (Hrefl : forall x, equal compare x x = true).
  { intros x. unfold equal. rewrite Hirr. reflexivity. }
  split.
  - intros Hreach.
    destruct (equal compare (test e first) (prepare e)) eqn:Efirst;
      [right; reflexivity|].
    left. intros [-> ->]. rewrite Hreach in Efirst. discriminate.
  - intros Hcase.
    destruct (canonical_loop_state e range (prepare e) first) as [Hsame | Htrack].
    + rewrite Hsame in Hloop. injection Hloop as <- <-.
      destruct Hcase as [Hchanged | Hfirst]; [|exact Hfirst].
      exfalso. apply Hchanged. split; reflexivity.
    + rewrite Hloop in Htrack. simpl in Htrack. rewrite Htrack. apply Hrefl.
Qed.

(** C4, as the code has it.  For an irreflexive comparator, after a call of
    either overload over a non-empty range that returned [C], preparing
    [copy_apply(to_canonical(), e)] gives an element equal to [C] in every
    case but one: the search ended as it began, with [C] being [prepare(e)]
    and [to_canonical()] the first operation of the range, and that first
    operation does not send [e] to an element with a prepared form equal to
    [prepare(e)].  So it does whenever [C] differs from [prepare(e)], and
    whenever the first operation is one that, like the identity, keeps the
    prepared form.  [from_canonical()] is [to_canonical().inverse()]. *)
Theorem to_canonical_reaches_result (gen : generator_type) (e : Element)
    (first : PermuteIterator) (rest : list PermuteIterator) :
  irreflexive compare ->
  (permute_range (supercell gen) = first :: rest ->
   let '(C, gen') := generate prepare compare copy_apply gen e in
   (equal compare (test e (to_canonical gen')) C = true <->
    ~ (C = prepare e /\ to_canonical gen' = first) \/
    equal compare (test e first) (prepare e) = true) /\
   from_canonical inverse gen' = inverse (to_canonical gen')) /\
  (exists C gen',
     generate_range prepare compare copy_apply gen e (first :: rest)
       = Some (C, gen') /\
     (equal compare (test e (to_canonical gen')) C = true <->
      ~ (C = prepare e /\ to_canonical gen' = first) \/
      equal compare (test e first) (prepare e) = true) /\
     from_canonical inverse gen' = inverse (to_canonical gen')).
Proof.
  intros Hirr. split.
  - intros Hrange. unfold generate, permute_begin. rewrite Hrange. cbn [hd].
    destruct (loop e (first :: rest) (prepare e) first) as [r best] eqn:Eloop.
    split; [|reflexivity].
    exact (canonical_loop_reaches e first (first :: rest) r best Hirr Eloop).
  - unfold generate_range.
    destruct (loop e (first :: rest) (prepare e) first) as [r best] eqn:Eloop.
    eexists _, _. split; [reflexivity|].
    split; [|reflexivity].
    exact (canonical_loop_reaches e first (first :: rest) r best Hirr Eloop).
Qed.
End SearchFacts.
End ScelOrbitGenerationFacts.

(** ** Preparing an element without constituents *)

Module ClusterSymCompareFacts.
Import xtal Cluster ClusterFacts ClusterSymCompare.

(** C9.  For each of the four policies and every element [obj] with
    [obj.size() == 0], [prepare(obj)], that is
    [representation_prepare(spatial_prepare(obj))], returns [obj] as it
    is; the recorded spatial transform is left as it was. *)
Theorem prepare_empty {Element : Type} `{ClusterElementLaws Element}
    (v : Variant) (m_spatial_transform : SpatialTransform) (obj : Element) :
  size obj = 0%nat ->
  prepare (sym_compare v) m_spatial_transform obj = (obj, m_spatial_transform).
Proof.
  intros Hsize. unfold prepare.
  destruct v as [| |f|f]; simpl.
  - unfold Aperiodic_representation_prepare_impl.
    rewrite (sort_empty obj Hsize). reflexivity.
  - unfold PrimPeriodic_spatial_prepare_impl,
      PrimPeriodic_representation_prepare_impl.
    rewrite Hsize; simpl. rewrite Hsize; reflexivity.
  - unfold ScelPeriodic_spatial_prepare_impl,
      ScelPeriodic_representation_prepare_impl.
    rewrite Hsize; simpl. rewrite Hsize; reflexivity.
  - unfold WithinScel_representation_prepare_impl.
    rewrite Hsize; reflexivity.
Qed.

Lemma prepare_empty_witness :
  size (Element := IntegralCluster) [] = 0%nat /\
  prepare (sym_compare (WithinScel MirrorChain.bring_within_f))
    (Eigen.Vec3 0 0 0) ([] : IntegralCluster) = ([], Eigen.Vec3 0 0 0).
Proof.
  split; [reflexivity|].
  apply (prepare_empty (Element := IntegralCluster)
           (WithinScel MirrorChain.bring_within_f) (Eigen.Vec3 0 0 0) []).
  reflexivity.
Defined.
End ClusterSymCompareFacts.

(** ** The equivalence map of an orbit *)

Module OrbitFacts.
Import Orbit.

Section OrbitFacts.
Context {Element SymOp : Type}.
Variable prepare : Element -> Element.
Variable compare : Element -> Element -> bool.
Variable copy_apply : SymOp -> Element -> Element.
Hypothesis compare_irreflexive : irreflexive compare.

Local Abbreviation orbit := (Orbit Element SymOp).

Lemma find_if_Some {A : Type} (pred : A -> bool) (range : list A) (i : nat) :
  find_if pred range = Some i ->
  exists x, range !! i = Some x /\ pred x = true.
Proof.
  revert i. induction range as [|x range IH]; simpl; intros i; [discriminate|].
  destruct (pred x) eqn:Ex.
  - intros [= <-]. exists x. split; [reflexivity | exact Ex].
  - destruct (find_if pred range) as [k|]; [|discriminate].
    intros [= <-]. exact (IH k eq_refl).
Qed.

Lemma merge_map_sound (generating_element : Element) (o : orbit) (op : SymOp) :
  map_sound prepare compare copy_apply generating_element o ->
  map_sound prepare compare copy_apply generating_element
    (merge prepare compare copy_apply generating_element o op).
Proof.
  intros [Hlen Hsound]. unfold merge, find.
  set (image := prepare (copy_apply op generating_element)).
  destruct (find_if (fun B => equal compare image B) (m_element o)) as [k|] eqn:Efind;
    simpl.
  - apply find_if_Some in Efind as (x & Hx & Heq).
    split; [cbn; rewrite length_alter; exact Hlen|]. cbn.
    intros i el ops Hel Hops.
    destruct (decide (k = i)) as [->|Hne].
    + rewrite list_lookup_alter_eq in Hops.
      destruct (m_equivalence_map o !! i) as [ops0|] eqn:E0; [|discriminate].
      injection Hops as <-.
      destruct (Hsound i el ops0 Hel E0) as [_ Hall].
      split; [intros Habs; apply app_eq_nil in Habs as [_ Habs]; discriminate|].
      intros op' Hin. apply in_app_or in Hin as [Hin | [<- | []]].
      * exact (Hall op' Hin).
      * rewrite Hx in Hel. injection Hel as <-. exact Heq.
    + rewrite list_lookup_alter_ne in Hops by exact Hne.
      exact (Hsound i el ops Hel Hops).
  - split; [cbn; rewrite !length_app, Hlen; reflexivity|]. cbn.
    intros i el ops Hel Hops.
    destruct (decide (i < length (m_element o))%nat) as [Hi|Hi].
    + rewrite lookup_app_l in Hel by exact Hi.
      rewrite lookup_app_l in Hops by (rewrite Hlen; exact Hi).
      exact (Hsound i el ops Hel Hops).
    + rewrite lookup_app_r in Hel by lia.
      rewrite lookup_app_r in Hops by lia.
      rewrite Hlen in Hops.
      destruct (i - length (m_element o))%nat as [|d]; simpl in *; [|discriminate].
      injection Hel as <-. injection Hops as <-.
      split; [discriminate|].
      intros op' [<- | []]. unfold equal. fold image.
      rewrite compare_irreflexive. reflexivity.
Qed.

Lemma construct_map_sound (generating_element : Element)
    (generating_group : list SymOp) :
  map_sound prepare compare copy_apply generating_element
    (construct prepare compare copy_apply generating_element generating_group).
Proof.
  unfold construct.
  assert (Hinit : map_sound prepare compare copy_apply generating_element
                    ({| m_element := []; m_equivalence_map := [] |} : orbit)).
  { split; [reflexivity|]. intros i el ops Hel. discriminate. }
  revert Hinit. generalize ({| m_element := []; m_equivalence_map := [] |} : orbit).
  induction generating_group as [|op group IH]; simpl; intros o Ho; [exact Ho|].
  apply IH, merge_map_sound, Ho.
Qed.

(** The elements found so far keep their places. *)
Lemma fold_merge_keeps (generating_element : Element)
    (generating_group : list SymOp) (o : orbit) (i : nat) (el : Element) :
  m_element o !! i = Some el ->
  m_element (fold_left (merge prepare compare copy_apply generating_element)
               generating_group o) !! i = Some el.
Proof.
  revert o. induction generating_group as [|op group IH]; simpl; intros o Hel;
    [exact Hel|].
  apply IH. unfold merge.
  destruct (find compare o _); simpl; [exact Hel|].
  apply lookup_app_l_Some. exact Hel.
Qed.

(** When the generating element is prepared and the first operation of the
    group leaves it as it is, it is the prototype, and every operation of an
    entry of the map sends the prototype onto the element of that entry. *)
Lemma construct_map_sound_prototype (generating_element : Element)
    (first : SymOp) (rest : list SymOp) :
  prepare generating_element = generating_element ->
  copy_apply first generating_element = generating_element ->
  let o := construct prepare compare copy_apply generating_element (first :: rest) in
  exists proto,
    prototype o = Some proto /\
    forall i el ops,
      element o i = Some el -> equivalence_map o i = Some ops ->
      ops <> [] /\
      forall op, In op ops ->
        equal compare (prepare (copy_apply op proto)) el = true.
Proof.
  intros Hprepared Hfirst o. exists generating_element. split.
  - unfold o, construct, prototype, element; simpl.
    apply fold_merge_keeps. unfold merge, find; simpl.
    rewrite Hfirst, Hprepared. reflexivity.
  - exact (proj2 (construct_map_sound generating_element (first :: rest))).
Qed.
End OrbitFacts.
End OrbitFacts.

(** ** The search on the chain of six cells *)

Module MirrorChainFacts.
Import Cluster ClusterFacts ScelOrbitGeneration ScelOrbitGenerationFacts MirrorChain.

Lemma compare_irreflexive : irreflexive compare.
Proof. exact cluster_less_irreflexive. Qed.

Lemma compare_transitive : transitive compare.
Proof. exact cluster_less_transitive. Qed.

Lemma compare_negatively_transitive : negatively_transitive compare.
Proof. exact cluster_less_negatively_transitive. Qed.

Example prepare_cluster_3_0 : prepare cluster_3_0 = [site_at 0; site_at 3].
Proof. reflexivity. Qed.

Example prepare_mirror_cluster_3_0 :
  prepare (copy_apply Mirror cluster_3_0) = cluster_2_5.
Proof. reflexivity. Qed.

(** The supercell has twelve permutations, and the search starts at the
    identity without translation. *)
Example scel_permute_range :
  length (permute_range scel) = 12%nat /\ permute_begin scel = Identity.
Proof. split; reflexivity. Qed.

(** The prepared images of the cluster on the cells 8 and 11 under the
    twelve permutations, in the order of the range. *)
Example images_cluster_8_11 :
  map (fun op => prepare (copy_apply op cluster_8_11)) (permute_range scel) =
  [ [site_at 2; site_at 5]; [site_at 3; site_at 6]; [site_at 4; site_at 7];
    [site_at 5; site_at 8]; [site_at 0; site_at 3]; [site_at 1; site_at 4];
    [site_at 0; site_at 3]; [site_at 1; site_at 4]; [site_at 2; site_at 5];
    [site_at (-3); site_at 0]; [site_at (-2); site_at 1];
    [site_at (-1); site_at 2] ].
Proof. reflexivity. Qed.

Example prepare_cluster_8_11 : prepare cluster_8_11 = cluster_2_5.
Proof. reflexivity. Qed.

Example generate_cluster_8_11 :
  generate prepare compare copy_apply generator cluster_8_11 =
  (cluster_5_8,
   {| m_scel := scel;
      m_to_canonical := {| factor_group_index := 0; translation_index := 3 |} |}).
Proof. reflexivity. Qed.

Example is_canonical_cluster_8_11 :
  is_canonical prepare compare copy_apply scel cluster_8_11 = true.
Proof. reflexivity. Qed.

(** C1 fails for an element that is not prepared, over the full
    permutation range of the supercell: the cluster on the cells 8 and 11
    passes the test of [ScelIsCanonical], as it is itself above every
    prepared image, and the generator returns the cluster on 5 and 8, which
    is not equal to the prepared cluster on 2 and 5. *)
Lemma is_canonical_disagrees_on_unprepared :
  length (permute_range (supercell generator)) = 12%nat /\
  is_canonical prepare compare copy_apply (supercell generator) cluster_8_11
    = true /\
  fst (generate prepare compare copy_apply generator cluster_8_11) = cluster_5_8 /\
  prepare cluster_8_11 = cluster_2_5 /\
  equal compare
    (fst (generate prepare compare copy_apply generator cluster_8_11))
    (prepare cluster_8_11) = false /\
  ~ (is_canonical prepare compare copy_apply (supercell generator) cluster_8_11
       = true <->
     equal compare
       (fst (generate prepare compare copy_apply generator cluster_8_11))
       (prepare cluster_8_11) = true).
Proof.
  repeat split.
  intros [Hto _]. specialize (Hto eq_refl). vm_compute in Hto. discriminate.
Qed.

(** The cluster on the cells 5 and 8 is prepared; it passes the test over
    the twelve permutations, and the generator returns it. *)
Lemma is_canonical_agrees_on_prepared_witness :
  prepare cluster_5_8 = cluster_5_8 /\
  is_canonical prepare compare copy_apply (supercell generator) cluster_5_8
    = true /\
  fst (generate prepare compare copy_apply generator cluster_5_8) = cluster_5_8 /\
  (is_canonical prepare compare copy_apply (supercell generator) cluster_5_8
     = true <->
   equal compare
     (fst (generate prepare compare copy_apply generator cluster_5_8))
     (prepare cluster_5_8) = true).
Proof.
  split; [reflexivity|]. split; [reflexivity|]. split; [reflexivity|].
  apply (is_canonical_agrees_on_prepared prepare compare copy_apply
           generator cluster_5_8 compare_irreflexive compare_transitive
           compare_negatively_transitive).
  reflexivity.
Defined.

Lemma generate_maximal_witness :
  let C := fst (generate prepare compare copy_apply generator cluster_3_0) in
  (C = prepare cluster_3_0 \/
   exists op, In op (permute_range (supercell generator)) /\
              C = prepare (copy_apply op cluster_3_0)) /\
  (forall op, In op (permute_range (supercell generator)) ->
              compare C (prepare (copy_apply op cluster_3_0)) = false).
Proof.
  exact (generate_maximal prepare compare copy_apply generator cluster_3_0
           compare_irreflexive compare_transitive).
Defined.

(** C3 fails for an element that is not prepared: the test on the
    unsorted cluster on the cells 3 and 0 returns [true], while the mirror
    image 2, 5 is greater than its prepared form 0, 3. *)
Lemma is_canonical_range_tests_raw_element :
  ~ (is_canonical_range prepare compare copy_apply cluster_3_0 [Identity; Mirror]
       = true <->
     forall op, In op [Identity; Mirror] ->
       compare (prepare cluster_3_0) (prepare (copy_apply op cluster_3_0))
         = false).
Proof.
  intros [Hto _].
  specialize (Hto eq_refl Mirror (or_intror (or_introl eq_refl))).
  vm_compute in Hto. discriminate.
Qed.

(** C4 fails on a restricted range without an operation that reaches the
    result: for the cluster on the cells 2 and 5 and the range that holds
    [Mirror] alone, the result is the cluster itself, its own prepared form,
    and [to_canonical()] is [Mirror], which sends it to the cluster on 0
    and 3. *)
Lemma to_canonical_misses_result :
  exists C gen',
    generate_range prepare compare copy_apply generator cluster_2_5 [Mirror]
      = Some (C, gen') /\
    C = cluster_2_5 /\
    to_canonical gen' = Mirror /\
    equal compare (prepare (copy_apply (to_canonical gen') cluster_2_5)) C
      = false.
Proof. eexists _, _. repeat split. Qed.

(** On the range that holds [Mirror], then [Identity], the first operation
    does not keep the prepared form of the cluster on the cells 3 and 0; the
    search improves on it, and [to_canonical()] reaches the result. *)
Lemma to_canonical_reaches_result_witness :
  equal compare (prepare (copy_apply Mirror cluster_3_0)) (prepare cluster_3_0)
    = false /\
  exists C gen',
    generate_range prepare compare copy_apply generator cluster_3_0
      [Mirror; Identity] = Some (C, gen') /\
    C = cluster_2_5 /\
    to_canonical gen' = Mirror /\
    equal compare (prepare (copy_apply (to_canonical gen') cluster_3_0)) C = true /\
    from_canonical inverse gen' = inverse (to_canonical gen').
Proof.
  split; [reflexivity|].
  destruct (to_canonical_reaches_result prepare compare copy_apply inverse
              generator cluster_3_0 Mirror [Identity] compare_irreflexive)
    as [_ (C & gen' & Hgen & Hreach & Hinv)].
  exists C, gen'. split; [exact Hgen|].
  injection Hgen as <- <-.
  split; [reflexivity|]. split; [reflexivity|].
  split; [|exact Hinv].
  apply (proj2 Hreach). left. intros [Habs _]. discriminate Habs.
Defined.

(** The end-to-end scenario: a two-site cluster and the identity alone give
    an orbit of size 1 whose entry of index 0 holds the identity. *)
Example orbit_of_trivial_group :
  Orbit.construct prepare compare copy_apply cluster_2_5 [Identity] =
  {| Orbit.m_element := [cluster_2_5];
     Orbit.m_equivalence_map := [[Identity]] |}.
Proof. reflexivity. Qed.

Example orbit_of_cluster_2_5 :
  Orbit.construct prepare compare copy_apply cluster_2_5 [Identity; Mirror] =
  {| Orbit.m_element := [cluster_2_5; [site_at 0; site_at 3]];
     Orbit.m_equivalence_map := [[Identity]; [Mirror]] |}.
Proof. reflexivity. Qed.

(** The merge records the operations by what they do to the generating
    element.  From the cluster on the cells 7 and 1, which is not prepared,
    the prototype is the cluster on -5 and 1 and the entry of the cluster on
    4 and 10 holds [Mirror], while the prepared image of the prototype under
    [Mirror] is the cluster on -2 and 4. *)
Example orbit_of_unprepared_cluster :
  let o := Orbit.construct prepare compare copy_apply
             [site_at 7; site_at 1] [Identity; Mirror] in
  Orbit.prototype o = Some [site_at (-5); site_at 1] /\
  Orbit.element o 1 = Some [site_at 4; site_at 10] /\
  Orbit.equivalence_map o 1 = Some [Mirror] /\
  prepare (copy_apply Mirror [site_at (-5); site_at 1]) = [site_at (-2); site_at 4].
Proof. repeat split. Qed.
End MirrorChainFacts.

(** ** [permute] and [ipermute] *)

Module PermutationFacts.
Import Permutation.
Local Open Scope Z_scope.

Lemma vector_at_of_nat {T : Type} (v : list T) (i : nat) :
  vector_at v (Z.of_nat i) = v !! i.
Proof.
  unfold vector_at. destruct (Z.ltb_spec (Z.of_nat i) 0); [lia|].
  rewrite Nat2Z.id. reflexivity.
Qed.

Lemma vector_at_nonneg {T : Type} (v : list T) (j : Z) :
  0 <= j -> vector_at v j = v !! Z.to_nat j.
Proof.
  intros Hj. unfold vector_at. destruct (Z.ltb_spec j 0); [lia | reflexivity].
Qed.

Lemma no_value_repeated_NoDup (l : list Z) :
  no_value_repeated l = true -> NoDup l.
Proof.
  induction l as [|x l IH]; simpl; intros H; [constructor|].
  apply andb_true_iff in H as [Hx Hl]. apply negb_true_iff in Hx.
  constructor; [|exact (IH Hl)].
  intros Hin. apply list_elem_of_In in Hin.
  assert (existsb (Z.eqb x) l = true) as Habs.
  { apply existsb_exists. exists x. split; [exact Hin | apply Z.eqb_refl]. }
  congruence.
Qed.

Lemma is_perm_valid (p : Permutation) : is_perm p = true -> valid p.
Proof.
  unfold is_perm. intros H. apply andb_true_iff in H as [Hr Hn].
  split; [|exact (no_value_repeated_NoDup _ Hn)].
  intros i j Hij. rewrite forallb_forall in Hr.
  assert (Hin : In j (m_perm_array p)).
  { apply list_elem_of_In, list_elem_of_lookup. exists i. exact Hij. }
  specialize (Hr j Hin). apply andb_true_iff in Hr as [H0 H1].
  apply Z.leb_le in H0. apply Z.ltb_lt in H1. lia.
Qed.

Lemma valid_injective (p : Permutation) (i i' : nat) (j : Z) :
  valid p ->
  m_perm_array p !! i = Some j -> m_perm_array p !! i' = Some j -> i = i'.
Proof. intros [_ Hn]. apply NoDup_lookup. exact Hn. Qed.

(** Every index is the image of an index. *)
Lemma valid_surjective (p : Permutation) (t : nat) :
  valid p -> (t < length (m_perm_array p))%nat ->
  exists i, m_perm_array p !! i = Some (Z.of_nat t).
Proof.
  intros [Hr Hn] Ht.
  set (n := length (m_perm_array p)) in *.
  set (all := Z.of_nat <$> seq 0 n).
  assert (Hsub : m_perm_array p ⊆+ all).
  { apply NoDup_submseteq; [exact Hn|].
    intros j Hj. apply list_elem_of_lookup in Hj as [i Hi].
    specialize (Hr i j Hi). unfold size in Hr. fold n in Hr.
    unfold all. apply list_elem_of_fmap. exists (Z.to_nat j).
    split; [lia|]. apply elem_of_seq. lia. }
  assert (Hperm : m_perm_array p ≡ₚ all).
  { apply submseteq_length_Permutation; [exact Hsub|].
    unfold all. rewrite length_fmap, length_seq. fold n. lia. }
  apply list_elem_of_lookup. rewrite Hperm.
  unfold all. apply list_elem_of_fmap. exists t.
  split; [reflexivity|]. apply elem_of_seq. lia.
Qed.

Section Vectors.
Context {T : Type}.
Variable p : Permutation.
Hypothesis p_valid : valid p.

Let n : nat := length (m_perm_array p).

(** [permute] returns, and [after[i] = before[p[i]]]. *)
Lemma permute_loop_inv (before_vec : list T) :
  length before_vec = n ->
  forall (m k : nat) (after_vec : list T),
  (k + m)%nat = n -> length after_vec = k ->
  (forall i j, (i < k)%nat -> m_perm_array p !! i = Some j ->
               after_vec !! i = before_vec !! Z.to_nat j) ->
  exists after,
    permute_loop p before_vec (seq k m) after_vec = Some after /\
    length after = n /\
    forall i j, m_perm_array p !! i = Some j ->
                after !! i = before_vec !! Z.to_nat j.
Proof.
  intros Hlen. induction m as [|m IH]; intros k after_vec Hk Hacc Hinv; simpl.
  - exists after_vec. split; [reflexivity|]. split; [lia|].
    intros i j Hij. apply Hinv; [|exact Hij].
    apply lookup_lt_Some in Hij. fold n in Hij. lia.
  - rewrite vector_at_of_nat.
    destruct (lookup_lt_is_Some_2 (m_perm_array p) k) as [j Hj];
      [fold n; lia|].
    rewrite Hj.
    pose proof (valid_range p p_valid k j Hj) as Hrange.
    unfold size in Hrange. fold n in Hrange.
    rewrite vector_at_nonneg by lia.
    destruct (lookup_lt_is_Some_2 before_vec (Z.to_nat j)) as [x Hx]; [lia|].
    rewrite Hx.
    apply IH; [lia | rewrite length_app; simpl; lia |].
    intros i j' Hi Hij'.
    destruct (decide (i = k)) as [->|Hne].
    + rewrite Hj in Hij'. injection Hij' as <-.
      rewrite lookup_app_r by lia.
      rewrite Hacc, Nat.sub_diag. simpl. symmetry; exact Hx.
    + rewrite lookup_app_l by lia. apply Hinv; [lia | exact Hij'].
Qed.

Lemma permute_spec (before_vec : list T) :
  Z.of_nat (length before_vec) = size p ->
  exists after,
    permute p before_vec = Some after /\
    length after = n /\
    forall i j, m_perm_array p !! i = Some j ->
                after !! i = before_vec !! Z.to_nat j.
Proof.
  intros Hlen. unfold permute. rewrite Hlen, Z.eqb_refl.
  unfold size in *. rewrite Nat2Z.id. fold n.
  apply permute_loop_inv; [fold n in Hlen; lia | lia | reflexivity |].
  intros i j Hi. lia.
Qed.

(** [ipermute] returns, and [after[p[i]] = before[i]]. *)
Lemma ipermute_loop_inv (before_array : list T) :
  length before_array = n ->
  forall (m k : nat) (after_array : list T),
  (k + m)%nat = n -> length after_array = n ->
  (forall i j, (i < k)%nat -> m_perm_array p !! i = Some j ->
               after_array !! Z.to_nat j = before_array !! i) ->
  (forall t, (forall i, (i < k)%nat ->
                        m_perm_array p !! i <> Some (Z.of_nat t)) ->
             after_array !! t = before_array !! t) ->
  exists after,
    ipermute_loop p before_array (seq k m) after_array = Some after /\
    length after = n /\
    forall i j, m_perm_array p !! i = Some j ->
                after !! Z.to_nat j = before_array !! i.
Proof.
  intros Hlen.
  induction m as [|m IH]; intros k after_array Hk Hacc Hset Hkept; simpl.
  - exists after_array. split; [reflexivity|]. split; [exact Hacc|].
    intros i j Hij. apply Hset; [|exact Hij].
    apply lookup_lt_Some in Hij. fold n in Hij. lia.
  - rewrite vector_at_of_nat.
    destruct (lookup_lt_is_Some_2 (m_perm_array p) k) as [j Hj];
      [fold n; lia|].
    rewrite Hj.
    pose proof (valid_range p p_valid k j Hj) as Hrange.
    unfold size in Hrange. fold n in Hrange.
    destruct (Z.eqb_spec (Z.of_nat k) j) as [Efix|Emove].
    + apply IH; [lia | exact Hacc | |].
      * intros i j' Hi Hij'.
        destruct (decide (i = k)) as [->|Hne];
          [|apply Hset; [lia | exact Hij']].
        rewrite Hj in Hij'. injection Hij' as <-.
        rewrite <- Efix, Nat2Z.id. apply Hkept.
        intros i Hi' Habs. rewrite Efix in Habs.
        pose proof (valid_injective p i k j p_valid Habs Hj). lia.
      * intros t Ht. apply Hkept. intros i Hi. apply Ht. lia.
    + rewrite vector_at_of_nat.
      destruct (lookup_lt_is_Some_2 before_array k) as [x Hx]; [lia|].
      rewrite Hx. unfold vector_set.
      destruct (Z.leb_spec 0 j); [|lia].
      destruct (Z.ltb_spec j (Z.of_nat (length after_array))); [|lia].
      simpl.
      apply IH; [lia | rewrite length_insert; exact Hacc | |].
      * intros i j' Hi Hij'.
        destruct (decide (i = k)) as [->|Hne].
        -- rewrite Hj in Hij'. injection Hij' as <-.
           rewrite list_lookup_insert_eq by lia. symmetry; exact Hx.
        -- assert (j' <> j) as Hjj.
           { intros ->. apply Hne.
             exact (valid_injective p i k j p_valid Hij' Hj). }
           pose proof (valid_range p p_valid i j' Hij') as Hrange'.
           rewrite list_lookup_insert_ne by lia.
           apply Hset; [lia | exact Hij'].
      * intros t Ht.
        assert (Z.to_nat j <> t) as Hjt.
        { intros <-. apply (Ht k); [lia|]. rewrite Z2Nat.id by lia. exact Hj. }
        rewrite list_lookup_insert_ne by exact Hjt.
        apply Hkept. intros i Hi. apply Ht. lia.
Qed.

Lemma ipermute_spec (before_array : list T) :
  Z.of_nat (length before_array) = size p ->
  exists after,
    ipermute p before_array = Some after /\
    length after = n /\
    forall i j, m_perm_array p !! i = Some j ->
                after !! Z.to_nat j = before_array !! i.
Proof.
  intros Hlen. unfold ipermute. rewrite Hlen, Z.eqb_refl.
  unfold size in *. rewrite Nat2Z.id. fold n.
  apply ipermute_loop_inv; [fold n in Hlen; lia | lia | fold n in Hlen; lia | |].
  - intros i j Hi. lia.
  - reflexivity.
Qed.
End Vectors.

(** C10.  For a permutation [p] for which [is_perm()] holds and a vector
    [v] of the size of [p], [permute] returns a vector [after] with
    [after[i] = v[p[i]]], and [ipermute] undoes [permute] on either side:
    [p.ipermute(p.permute(v)) == v] and [p.permute(p.ipermute(v)) == v]. *)
Theorem ipermute_permute_inverse {T : Type} (p : Permutation) (v : list T) :
  is_perm p = true ->
  Z.of_nat (length v) = size p ->
  (exists after,
     permute p v = Some after /\
     forall i j, m_perm_array p !! i = Some j -> after !! i = vector_at v j) /\
  and_then (permute p v) (ipermute p) = Some v /\
  and_then (ipermute p v) (permute p) = Some v.
Proof.
  intros Hperm Hlen. apply is_perm_valid in Hperm as Hvalid.
  assert (Hn : length v = length (m_perm_array p)) by (unfold size in Hlen; lia).
  destruct (permute_spec p Hvalid v Hlen) as (u & Hu & Hulen & Hspec_u).
  destruct (ipermute_spec p Hvalid v Hlen) as (w & Hw & Hwlen & Hspec_w).
  split; [|split].
  - exists u. split; [exact Hu|]. intros i j Hij.
    pose proof (valid_range p Hvalid i j Hij).
    rewrite vector_at_nonneg by lia. exact (Hspec_u i j Hij).
  - rewrite Hu; simpl.
    destruct (ipermute_spec p Hvalid u) as (u' & Hu' & Hu'len & Hspec_u');
      [unfold size; lia|].
    rewrite Hu'. f_equal. apply list_eq. intros t.
    destruct (decide (t < length v)%nat) as [Ht|Ht].
    + destruct (valid_surjective p t Hvalid) as [i Hi]; [lia|].
      pose proof (Hspec_u' i _ Hi) as H1. pose proof (Hspec_u i _ Hi) as H2.
      rewrite Nat2Z.id in H1, H2. congruence.
    + rewrite !lookup_ge_None_2 by lia. reflexivity.
  - rewrite Hw; simpl.
    destruct (permute_spec p Hvalid w) as (w' & Hw' & Hw'len & Hspec_w');
      [unfold size; lia|].
    rewrite Hw'. f_equal. apply list_eq. intros i.
    destruct (decide (i < length v)%nat) as [Hi|Hi].
    + destruct (lookup_lt_is_Some_2 (m_perm_array p) i) as [j Hj]; [lia|].
      rewrite (Hspec_w' i j Hj). exact (Hspec_w i j Hj).
    + rewrite !lookup_ge_None_2 by lia. reflexivity.
Qed.

Lemma ipermute_permute_inverse_witness :
  let p := {| m_perm_array := [2; 0; 1; 3] |} in
  let v := [10; 11; 12; 13]%nat in
  is_perm p = true /\
  Z.of_nat (length v) = size p /\
  permute p v = Some [12; 10; 11; 13]%nat /\
  and_then (permute p v) (ipermute p) = Some v /\
  and_then (ipermute p v) (permute p) = Some v.
Proof.
  intros p v.
  split; [reflexivity|]. split; [reflexivity|]. split; [reflexivity|].
  apply (ipermute_permute_inverse p v); reflexivity.
Defined.
End PermutationFacts.

(** ** More on [permute] and [ipermute] *)

Module PermutationOpsFacts.
Import Permutation PermutationOps PermutationFacts.
Local Open Scope Z_scope.

Lemma vector_at_Some {T : Type} (v : list T) (j : Z) (x : T) :
  vector_at v j = Some x <-> 0 <= j /\ v !! Z.to_nat j = Some x.
Proof.
  unfold vector_at. destruct (Z.ltb_spec j 0); split.
  - discriminate.
  - intros [? _]. lia.
  - intros H'. split; [lia | exact H'].
  - intros [_ H']. exact H'.
Qed.

Lemma vector_at_bound {T : Type} (v : list T) (j : Z) (x : T) :
  vector_at v j = Some x -> 0 <= j < Z.of_nat (length v).
Proof.
  intros H. apply vector_at_Some in H as [H0 H1].
  apply lookup_lt_Some in H1. lia.
Qed.

(** The loop of [permute] reads the entries of the permutation one after the
    other and stops at the first that is no index of the vector. *)
Lemma permute_loop_mapM {T : Type} (p : Permutation) (v : list T) :
  forall (suf pre : list Z) (acc : list T),
  m_perm_array p = pre ++ suf ->
  permute_loop p v (seq (length pre) (length suf)) acc =
  (fun l => acc ++ l) <$> mapM (vector_at v) suf.
Proof.
  induction suf as [|j suf IH]; intros pre acc Harr; simpl.
  - rewrite app_nil_r. reflexivity.
  - rewrite vector_at_of_nat, Harr, list_lookup_middle by reflexivity.
    destruct (vector_at v j) as [x|] eqn:Ex; simpl; [|reflexivity].
    specialize (IH (pre ++ [j]) (acc ++ [x])).
    rewrite length_app in IH; simpl in IH.
    replace (length pre + 1)%nat with (S (length pre)) in IH by lia.
    rewrite IH by (rewrite <- app_assoc; exact Harr).
    destruct (mapM (vector_at v) suf) as [l|]; simpl; [|reflexivity].
    rewrite <- app_assoc. reflexivity.
Qed.

Lemma permute_mapM {T : Type} (p : Permutation) (v : list T) :
  permute p v =
  if Z.of_nat (length v) =? size p then mapM (vector_at v) (m_perm_array p)
  else None.
Proof.
  unfold permute. destruct (Z.of_nat (length v) =? size p); [|reflexivity].
  unfold size. rewrite Nat2Z.id.
  pose proof (permute_loop_mapM p v (m_perm_array p) [] [] eq_refl) as H.
  simpl in H. rewrite H.
  destruct (mapM (vector_at v) (m_perm_array p)); reflexivity.
Qed.

(** X1.  [permute] returns the vector [after] exactly when these three
    hold together: [before_vec] has the size of the permutation, [after] has
    that size too, and every [after[i]] is [before_vec[m_perm_array[i]]],
    read at an index of [before_vec].  It needs no more of the permutation,
    whose values may repeat. *)
Theorem permute_Some_iff {T : Type} (p : Permutation) (before_vec after : list T) :
  permute p before_vec = Some after <->
  Z.of_nat (length before_vec) = size p /\
  length after = length (m_perm_array p) /\
  forall i j x, m_perm_array p !! i = Some j -> after !! i = Some x ->
                vector_at before_vec j = Some x.
Proof.
  rewrite permute_mapM.
  destruct (Z.eqb_spec (Z.of_nat (length before_vec)) (size p)) as [E|E].
  - rewrite mapM_Some, Forall2_same_length_lookup. split.
    + intros [Hlen H]. split; [exact E|]. split; [symmetry; exact Hlen | exact H].
    + intros (_ & Hlen & H). split; [symmetry; exact Hlen | exact H].
  - split; [discriminate | intros [E' _]; contradiction].
Qed.

(** X2.  [permute] has no result exactly when the sizes differ (the
    assertion) or an entry of the permutation is no index of the vector. *)
Theorem permute_None_iff {T : Type} (p : Permutation) (before_vec : list T) :
  permute p before_vec = None <->
  Z.of_nat (length before_vec) <> size p \/
  exists i j, m_perm_array p !! i = Some j /\
              ~ (0 <= j < Z.of_nat (length before_vec)).
Proof.
  rewrite permute_mapM.
  destruct (Z.eqb_spec (Z.of_nat (length before_vec)) (size p)) as [E|E].
  - rewrite mapM_None, Exists_exists. split.
    + intros (j & Hj & Hnone). right.
      apply list_elem_of_lookup in Hj as [i Hi]. exists i, j. split; [exact Hi|].
      intros Hrange. unfold vector_at in Hnone.
      destruct (Z.ltb_spec j 0); [lia|].
      apply lookup_ge_None in Hnone. lia.
    + intros [Hne | (i & j & Hi & Hout)]; [contradiction|].
      exists j. split; [apply list_elem_of_lookup; exists i; exact Hi|].
      unfold vector_at. destruct (Z.ltb_spec j 0); [reflexivity|].
      apply lookup_ge_None. lia.
  - split; [intros _; left; exact E | reflexivity].
Qed.

Lemma iota_lookup (N i : nat) :
  (i < N)%nat -> iota N !! i = Some (Z.of_nat i).
Proof.
  intros Hi. unfold iota. change map with (@fmap list _) at 1.
  rewrite list_lookup_fmap, lookup_seq_lt by exact Hi. reflexivity.
Qed.

Lemma iota_length (N : nat) : length (iota N) = N.
Proof. unfold iota. rewrite length_map, length_seq. reflexivity. Qed.

(** The loop of [ipermute] writes nothing for entries with
    [i == m_perm_array[i]]. *)
Lemma ipermute_loop_fixed_points {T : Type} (p : Permutation) (v : list T) :
  forall (m k : nat) (acc : list T),
  (forall i, (k <= i < k + m)%nat -> m_perm_array p !! i = Some (Z.of_nat i)) ->
  ipermute_loop p v (seq k m) acc = Some acc.
Proof.
  induction m as [|m IH]; intros k acc Hfix; simpl; [reflexivity|].
  rewrite vector_at_of_nat, (Hfix k) by lia. rewrite Z.eqb_refl.
  apply IH. intros i Hi. apply Hfix. lia.
Qed.

(** X3.  The permutation that [Permutation(N)] constructs has size [N] and
    leaves every vector of that size as it is, under [permute], [ipermute]
    and [operator*]. *)
Theorem identity_permutes_nothing {T : Type} (N : Z) (v : list T) :
  Z.of_nat (length v) = N ->
  exists p,
    make N = Some p /\ size p = N /\
    permute p v = Some v /\ ipermute p v = Some v /\ mul_vector p v = Some v.
Proof.
  intros Hlen. unfold make. destruct (Z.ltb_spec N 0); [lia|].
  eexists. split; [reflexivity|].
  set (p := {| m_perm_array := iota (Z.to_nat N) |}).
  assert (Hsize : size p = N).
  { unfold size, p; simpl. rewrite iota_length. lia. }
  assert (Hpermute : permute p v = Some v).
  { apply permute_Some_iff. split; [lia|].
    split; [unfold p; simpl; rewrite iota_length; lia|].
    intros i j x Hi Hx. unfold p in Hi; simpl in Hi.
    rewrite iota_lookup in Hi by (apply lookup_lt_Some in Hx; lia).
    injection Hi as <-. rewrite vector_at_of_nat. exact Hx. }
  split; [exact Hsize|]. split; [exact Hpermute|]. split; [|exact Hpermute].
  unfold ipermute. rewrite Hsize, Hlen, Z.eqb_refl.
  apply ipermute_loop_fixed_points. intros i Hi.
  unfold p; simpl. apply iota_lookup. lia.
Qed.

Lemma identity_permutes_nothing_witness :
  exists p,
    make 3 = Some p /\ size p = 3 /\
    permute p [7; 8; 9]%nat = Some [7; 8; 9]%nat /\
    ipermute p [7; 8; 9]%nat = Some [7; 8; 9]%nat /\
    mul_vector p [7; 8; 9]%nat = Some [7; 8; 9]%nat.
Proof. apply (identity_permutes_nothing 3 [7; 8; 9]%nat). reflexivity. Defined.

Lemma named_index_inj (p : Permutation) :
  valid p -> Inj (=) (=) (named_index p).
Proof.
  intros Hvalid a b. unfold named_index.
  destruct (m_perm_array p !! a) as [ja|] eqn:Ea,
           (m_perm_array p !! b) as [jb|] eqn:Eb.
  - pose proof (valid_range p Hvalid a ja Ea).
    pose proof (valid_range p Hvalid b jb Eb).
    intros H'. assert (ja = jb) by lia. subst jb.
    exact (valid_injective p a b ja Hvalid Ea Eb).
  - pose proof (valid_range p Hvalid a ja Ea) as Hr. unfold size in Hr.
    apply lookup_ge_None in Eb. lia.
  - pose proof (valid_range p Hvalid b jb Eb) as Hr. unfold size in Hr.
    apply lookup_ge_None in Ea. lia.
  - auto.
Qed.

(** X4.  For a permutation for which [is_perm()] holds and a vector of its
    size, [permute] and [ipermute] return rearrangements of the vector:
    nothing is lost and nothing is doubled. *)
Theorem permute_rearranges {T : Type} (p : Permutation) (v : list T) :
  is_perm p = true ->
  Z.of_nat (length v) = size p ->
  exists after after',
    permute p v = Some after /\ ipermute p v = Some after' /\
    after ≡ₚ v /\ after' ≡ₚ v.
Proof.
  intros Hperm Hlen. apply is_perm_valid in Hperm as Hvalid.
  assert (Hn : length v = length (m_perm_array p)) by (unfold size in Hlen; lia).
  destruct (permute_spec p Hvalid v Hlen) as (u & Hu & Hulen & Hspec_u).
  destruct (ipermute_spec p Hvalid v Hlen) as (w & Hw & Hwlen & Hspec_w).
  exists u, w. split; [exact Hu|]. split; [exact Hw|]. split.
  - apply Permutation_inj. split; [lia|].
    exists (named_index p). split; [exact (named_index_inj p Hvalid)|].
    intros i. unfold named_index.
    destruct (m_perm_array p !! i) as [j|] eqn:Ei.
    + exact (Hspec_u i j Ei).
    + apply lookup_ge_None in Ei.
      rewrite !lookup_ge_None_2 by lia. reflexivity.
  - symmetry. apply Permutation_inj. split; [lia|].
    exists (named_index p). split; [exact (named_index_inj p Hvalid)|].
    intros i. unfold named_index.
    destruct (m_perm_array p !! i) as [j|] eqn:Ei.
    + symmetry. exact (Hspec_w i j Ei).
    + apply lookup_ge_None in Ei.
      rewrite !lookup_ge_None_2 by lia. reflexivity.
Qed.

Lemma permute_rearranges_witness :
  let p := {| m_perm_array := [2; 0; 1; 3] |} in
  let v := [10; 11; 12; 13]%nat in
  exists after after',
    permute p v = Some after /\ ipermute p v = Some after' /\
    after ≡ₚ v /\ after' ≡ₚ v.
Proof.
  intros p v. apply (permute_rearranges p v); reflexivity.
Defined.

(** The loop of [ipermute] returns exactly when every entry that it writes
    through is an index of the vector. *)
Lemma ipermute_loop_defined {T : Type} (p : Permutation) (v : list T) :
  forall (m k : nat) (acc : list T),
  (k + m)%nat = length (m_perm_array p) ->
  length v = length (m_perm_array p) ->
  length acc = length (m_perm_array p) ->
  (forall after, ipermute_loop p v (seq k m) acc = Some after ->
                 length after = length (m_perm_array p)) /\
  (is_Some (ipermute_loop p v (seq k m) acc) <->
   forall i j, (k <= i)%nat -> m_perm_array p !! i = Some j ->
               Z.of_nat i <> j -> 0 <= j < size p).
Proof.
  induction m as [|m IH]; intros k acc Hk Hv Hacc; simpl.
  - split; [intros after [= <-]; exact Hacc|].
    split; [|intros _; eexists; reflexivity].
    intros _ i j Hi Hij. apply lookup_lt_Some in Hij. lia.
  - rewrite vector_at_of_nat.
    destruct (lookup_lt_is_Some_2 (m_perm_array p) k) as [j Hj]; [lia|].
    rewrite Hj.
    destruct (Z.eqb_spec (Z.of_nat k) j) as [Efix|Emove].
    + destruct (IH (S k) acc) as [IHlen IHdef]; [lia | exact Hv | exact Hacc|].
      split; [exact IHlen|]. rewrite IHdef. split.
      * intros H i j' Hi Hij' Hne.
        destruct (decide (i = k)) as [->|Hik]; [congruence|].
        apply (H i j'); [lia | exact Hij' | exact Hne].
      * intros H i j' Hi. apply H. lia.
    + rewrite vector_at_of_nat.
      destruct (lookup_lt_is_Some_2 v k) as [x Hx]; [lia|].
      rewrite Hx. unfold vector_set.
      destruct (Z.leb_spec 0 j); simpl.
      * destruct (Z.ltb_spec j (Z.of_nat (length acc))); simpl.
        -- destruct (IH (S k) (<[Z.to_nat j := x]> acc)) as [IHlen IHdef];
             [lia | exact Hv | rewrite length_insert; exact Hacc|].
           split; [exact IHlen|]. rewrite IHdef. split.
           ++ intros H' i j' Hi Hij' Hne.
              destruct (decide (i = k)) as [->|Hik].
              ** rewrite Hj in Hij'. injection Hij' as <-. unfold size. lia.
              ** apply (H' i j'); [lia | exact Hij' | exact Hne].
           ++ intros H' i j' Hi. apply H'. lia.
        -- split; [discriminate|]. split; [intros [? ?]; discriminate|].
           intros H'. specialize (H' k j ltac:(lia) Hj Emove).
           unfold size in H'. lia.
      * split; [discriminate|]. split; [intros [? ?]; discriminate|].
        intros H'. specialize (H' k j ltac:(lia) Hj Emove). lia.
Qed.

(** X5.  [ipermute] returns exactly when the vector has the size of the
    permutation and every entry [m_perm_array[i]] other than [i] itself is an
    index of the vector; what it returns has the size of the vector. *)
Theorem ipermute_defined_iff {T : Type} (p : Permutation) (before_array : list T) :
  (is_Some (ipermute p before_array) <->
   Z.of_nat (length before_array) = size p /\
   forall i j, m_perm_array p !! i = Some j -> Z.of_nat i <> j ->
               0 <= j < size p) /\
  (forall after, ipermute p before_array = Some after ->
                 length after = length before_array).
Proof.
  unfold ipermute.
  destruct (Z.eqb_spec (Z.of_nat (length before_array)) (size p)) as [E|E].
  - assert (Hn : length before_array = length (m_perm_array p))
      by (unfold size in E; lia).
    assert (Hs : Z.to_nat (size p) = length (m_perm_array p))
      by (unfold size; lia).
    rewrite Hs.
    destruct (ipermute_loop_defined p before_array
                (length (m_perm_array p)) 0 before_array) as [Hlen Hdef];
      [reflexivity | exact Hn | exact Hn|].
    split.
    + rewrite Hdef. split.
      * intros H. split; [exact E|]. intros i j. apply H. lia.
      * intros [_ H] i j _. apply H.
    + intros after Hafter. rewrite (Hlen after Hafter). symmetry; exact Hn.
  - split; [|discriminate].
    split; [intros [? ?]; discriminate | intros [E' _]; contradiction].
Qed.
End PermutationOpsFacts.

(** ** More on the canonical-form search *)

Module ScelSearchFacts.
Import ScelOrbitGeneration ScelOrbitGenerationFacts.

Section RangeFacts.
Context {Element PermuteIterator : Type}.
Variable prepare : Element -> Element.
Variable compare : Element -> Element -> bool.
Variable copy_apply : PermuteIterator -> Element -> Element.

Local Abbreviation test e op := (prepare (copy_apply op e)).
Local Abbreviation loop := (canonical_loop prepare compare copy_apply).
Local Abbreviation generator_type := (ScelCanonicalGenerator PermuteIterator).

Lemma canonical_loop_app (e : Element) (range1 range2 : list PermuteIterator) :
  forall (result : Element) (to : PermuteIterator),
  loop e (range1 ++ range2) result to =
  loop e range2 (fst (loop e range1 result to)) (snd (loop e range1 result to)).
Proof.
  induction range1 as [|it range1 IH]; simpl; intros result to; [reflexivity|].
  destruct (compare result (test e it)); apply IH.
Qed.

(** The operation that the loop reports is the one it started with or an
    operation of the range. *)
Lemma canonical_loop_reports (e : Element) (range : list PermuteIterator) :
  forall (result : Element) (to : PermuteIterator),
  snd (loop e range result to) = to \/ In (snd (loop e range result to)) range.
Proof.
  induction range as [|it range IH]; simpl; intros result to; [left; reflexivity|].
  destruct (compare result (test e it)).
  - destruct (IH (test e it) it) as [-> | H]; right; [left; reflexivity | right; exact H].
  - destruct (IH result to) as [-> | H]; [left; reflexivity | right; right; exact H].
Qed.

(** X6.  A search over a range in two parts is the search over the first
    part followed by the loop over the second part, which starts from the
    element and the operation that the first search reached. *)
Theorem generate_range_app (gen : generator_type) (e : Element)
    (range1 range2 : list PermuteIterator)
    (C1 : Element) (gen1 : generator_type) :
  generate_range prepare compare copy_apply gen e range1 = Some (C1, gen1) ->
  generate_range prepare compare copy_apply gen e (range1 ++ range2) =
  Some (fst (loop e range2 C1 (to_canonical gen1)),
        {| m_scel := m_scel gen;
           m_to_canonical := snd (loop e range2 C1 (to_canonical gen1)) |}).
Proof.
  unfold generate_range. destruct range1 as [|first range1]; [discriminate|].
  change ((first :: range1) ++ range2) with (first :: (range1 ++ range2)).
  cbv iota. rewrite (canonical_loop_app e (first :: range1) range2).
  destruct (loop e (first :: range1) (prepare e) first) as [r best].
  intros [= <- <-]. unfold to_canonical; simpl.
  destruct (loop e range2 r best); reflexivity.
Qed.

(** X7.  For a comparator that is irreflexive and transitive, the element
    that the overload with a range returns is [prepare(e)] or the prepared
    image of [e] under an operation of the range, it is [prepare(e)] or
    greater, no prepared image under an operation of the range is greater,
    and [to_canonical()] is an operation of the range. *)
Theorem generate_range_maximal (gen gen' : generator_type) (e C : Element)
    (range : list PermuteIterator) :
  irreflexive compare ->
  transitive compare ->
  generate_range prepare compare copy_apply gen e range = Some (C, gen') ->
  (C = prepare e \/ exists op, In op range /\ C = test e op) /\
  (C = prepare e \/ compare (prepare e) C = true) /\
  (forall op, In op range -> compare C (test e op) = false) /\
  In (to_canonical gen') range.
Proof.
  intros Hirr Htrans. unfold generate_range.
  destruct range as [|first rest]; [discriminate|].
  pose proof (canonical_loop_maximal prepare compare copy_apply Hirr Htrans e
                (first :: rest) (prepare e) first) as (Hwhich & Hup & Hmax).
  pose proof (canonical_loop_reports e (first :: rest) (prepare e) first) as Hop.
  destruct (loop e (first :: rest) (prepare e) first) as [r best].
  intros [= <- <-]. unfold to_canonical; simpl in *.
  split; [exact Hwhich|]. split; [exact Hup|]. split; [exact Hmax|].
  destruct Hop as [-> | Hop]; [left; reflexivity | exact Hop].
Qed.

(** X8.  For a comparator that is a strict weak order and an element that
    is already prepared, the test of [ScelIsCanonical] over a non-empty range
    holds exactly when the search over that range returns an element equal to
    [prepare(e)]; the search then returns [e] itself and reports the first
    operation of the range. *)
Theorem is_canonical_range_agrees (gen : generator_type) (e : Element)
    (first : PermuteIterator) (rest : list PermuteIterator) :
  irreflexive compare ->
  transitive compare ->
  negatively_transitive compare ->
  prepare e = e ->
  exists C gen',
    generate_range prepare compare copy_apply gen e (first :: rest)
      = Some (C, gen') /\
    (is_canonical_range prepare compare copy_apply e (first :: rest) = true <->
     equal compare C (prepare e) = true) /\
    (is_canonical_range prepare compare copy_apply e (first :: rest) = true ->
     C = e /\ to_canonical gen' = first).
Proof.
  intros Hirr Htrans Hneg Hprepared.
  unfold generate_range.
  pose proof (canonical_loop_maximal prepare compare copy_apply Hirr Htrans e
                (first :: rest) (prepare e) first) as (_ & _ & Hmax).
  pose proof (canonical_loop_fixed prepare compare copy_apply e
                (first :: rest) (prepare e) first) as Hfixed.
  destruct (loop e (first :: rest) (prepare e) first) as [r best].
  eexists _, _. split; [reflexivity|]. simpl in Hmax. unfold to_canonical; simpl.
  unfold is_canonical_range. rewrite none_of_spec. unfold less_than.
  rewrite Hprepared in Hfixed |- *.
  split; [split|].
  - intros Hnone. injection (Hfixed Hnone) as -> ->.
    unfold equal. rewrite Hirr. reflexivity.
  - unfold equal. intros Heq op Hop.
    apply andb_true_iff in Heq as [_ Hpr]. apply negb_true_iff in Hpr.
    exact (Hneg _ _ _ Hpr (Hmax op Hop)).
  - intros Hnone. injection (Hfixed Hnone) as -> ->. split; reflexivity.
Qed.

(** Either the loop changes nothing, or it reports the first operation of
    the range that reaches its result: the images before it are below. *)
Lemma canonical_loop_earliest (e : Element) (range : list PermuteIterator) :
  transitive compare ->
  negatively_transitive compare ->
  forall (result : Element) (to : PermuteIterator),
  loop e range result to = (result, to) \/
  exists before after,
    range = before ++ snd (loop e range result to) :: after /\
    fst (loop e range result to) = test e (snd (loop e range result to)) /\
    compare result (fst (loop e range result to)) = true /\
    forall op, In op before ->
      compare (test e op) (fst (loop e range result to)) = true.
Proof.
  intros Htrans Hneg.
  induction range as [|it range IH]; simpl; intros result to; [left; reflexivity|].
  destruct (compare result (test e it)) eqn:Ecmp.
  - right. destruct (IH (test e it) it) as [Hsame | (before & after & Hr & Hf & Hup & Hlow)].
    + rewrite Hsame; simpl. exists [], range.
      split; [reflexivity|]. split; [reflexivity|]. split; [exact Ecmp|].
      intros op [].
    + exists (it :: before), after.
      split; [simpl; f_equal; exact Hr|]. split; [exact Hf|].
      split; [exact (Htrans _ _ _ Ecmp Hup)|].
      intros op [<- | Hop]; [exact Hup | exact (Hlow op Hop)].
  - destruct (IH result to) as [Hsame | (before & after & Hr & Hf & Hup & Hlow)].
    + left. exact Hsame.
    + right. exists (it :: before), after.
      split; [simpl; f_equal; exact Hr|]. split; [exact Hf|]. split; [exact Hup|].
      intros op [<- | Hop]; [|exact (Hlow op Hop)].
      destruct (compare (test e it) (fst (loop e range result to))) eqn:Elow;
        [reflexivity|].
      rewrite (Hneg _ _ _ Ecmp Elow) in Hup. discriminate.
Qed.

(** X9.  For a comparator that is a strict weak order: when the search over
    a range returns an element greater than [prepare(e)], [to_canonical()] is
    the first operation of the range whose prepared image is the returned
    element; the prepared images under the operations before it are below
    the returned element. *)
Theorem to_canonical_is_earliest (gen gen' : generator_type) (e C : Element)
    (range : list PermuteIterator) :
  irreflexive compare ->
  transitive compare ->
  negatively_transitive compare ->
  generate_range prepare compare copy_apply gen e range = Some (C, gen') ->
  compare (prepare e) C = true ->
  exists before after,
    range = before ++ to_canonical gen' :: after /\
    C = test e (to_canonical gen') /\
    forall op, In op before ->
      compare (test e op) C = true /\ equal compare (test e op) C = false.
Proof.
  intros Hirr Htrans Hneg. unfold generate_range.
  destruct range as [|first rest]; [discriminate|].
  pose proof (canonical_loop_earliest e (first :: rest) Htrans Hneg
                (prepare e) first) as Hearly.
  destruct (loop e (first :: rest) (prepare e) first) as [r best] eqn:Eloop.
  intros [= <- <-] Hup. unfold to_canonical; simpl in *.
  destruct Hearly as [[= -> _] | (before & after & Hr & Hf & _ & Hlow)].
  - rewrite Hirr in Hup. discriminate.
  - exists before, after. split; [exact Hr|]. split; [exact Hf|].
    intros op Hop. split; [exact (Hlow op Hop)|].
    unfold equal. rewrite (Hlow op Hop). reflexivity.
Qed.

(** X10.  The test of [ScelIsCanonical] over a range in two parts is the
    conjunction of the tests over the parts, and an element that passes the
    test over a range passes it over every range drawn from it. *)
Theorem is_canonical_range_parts (e : Element)
    (range1 range2 : list PermuteIterator) :
  is_canonical_range prepare compare copy_apply e (range1 ++ range2) =
  is_canonical_range prepare compare copy_apply e range1
  && is_canonical_range prepare compare copy_apply e range2 /\
  (incl range2 range1 ->
   is_canonical_range prepare compare copy_apply e range1 = true ->
   is_canonical_range prepare compare copy_apply e range2 = true).
Proof.
  unfold is_canonical_range. split.
  - induction range1 as [|it range1 IH]; simpl; [reflexivity|].
    destruct (less_than prepare compare copy_apply e it); [reflexivity | exact IH].
  - rewrite !none_of_spec. intros Hincl H op Hop. exact (H op (Hincl op Hop)).
Qed.
End RangeFacts.
End ScelSearchFacts.

Module MirrorChainSearchFacts.
Import ScelOrbitGeneration ScelSearchFacts MirrorChain MirrorChainFacts.

Lemma generate_range_app_witness :
  generate_range prepare compare copy_apply generator cluster_3_0 [Identity]
    = Some ([site_at 0; site_at 3],
            {| m_scel := scel; m_to_canonical := Identity |}) /\
  generate_range prepare compare copy_apply generator cluster_3_0
    ([Identity] ++ [Mirror])
    = Some (cluster_2_5, {| m_scel := scel; m_to_canonical := Mirror |}).
Proof.
  split; [reflexivity|].
  exact (generate_range_app prepare compare copy_apply generator cluster_3_0
           [Identity] [Mirror] _ _ eq_refl).
Defined.

Lemma generate_range_maximal_witness :
  generate_range prepare compare copy_apply generator cluster_3_0
    [Identity; Mirror]
    = Some (cluster_2_5, {| m_scel := scel; m_to_canonical := Mirror |}) /\
  (forall op, In op [Identity; Mirror] ->
     compare cluster_2_5 (prepare (copy_apply op cluster_3_0)) = false) /\
  In Mirror [Identity; Mirror].
Proof.
  split; [reflexivity|].
  pose proof (generate_range_maximal prepare compare copy_apply generator
                {| m_scel := scel; m_to_canonical := Mirror |}
                cluster_3_0 cluster_2_5 [Identity; Mirror]
                compare_irreflexive compare_transitive eq_refl)
    as (_ & _ & Hmax & Hin).
  split; [exact Hmax | exact Hin].
Defined.

Lemma is_canonical_range_agrees_witness :
  prepare cluster_2_5 = cluster_2_5 /\
  exists C gen',
    generate_range prepare compare copy_apply generator cluster_2_5
      [Identity; Mirror] = Some (C, gen') /\
    (is_canonical_range prepare compare copy_apply cluster_2_5 [Identity; Mirror]
       = true <->
     equal compare C (prepare cluster_2_5) = true) /\
    (is_canonical_range prepare compare copy_apply cluster_2_5 [Identity; Mirror]
       = true ->
     C = cluster_2_5 /\ to_canonical gen' = Identity).
Proof.
  split; [reflexivity|].
  exact (is_canonical_range_agrees prepare compare copy_apply generator
           cluster_2_5 Identity [Mirror] compare_irreflexive compare_transitive
           compare_negatively_transitive eq_refl).
Defined.

Lemma to_canonical_is_earliest_witness :
  compare (prepare cluster_3_0) cluster_2_5 = true /\
  exists before after,
    [Identity; Mirror] = before ++ Mirror :: after /\
    cluster_2_5 = prepare (copy_apply Mirror cluster_3_0) /\
    forall op, In op before ->
      compare (prepare (copy_apply op cluster_3_0)) cluster_2_5 = true /\
      equal compare (prepare (copy_apply op cluster_3_0)) cluster_2_5 = false.
Proof.
  split; [reflexivity|].
  exact (to_canonical_is_earliest prepare compare copy_apply generator
           {| m_scel := scel; m_to_canonical := Mirror |}
           cluster_3_0 cluster_2_5 [Identity; Mirror]
           compare_irreflexive compare_transitive compare_negatively_transitive
           eq_refl eq_refl).
Defined.
End MirrorChainSearchFacts.

(** ** Looking an element up in an orbit *)

Module OrbitFindFacts.
Import Orbit.

Section FindFacts.
Context {Element SymOp : Type}.
Variable compare : Element -> Element -> bool.

Local Abbreviation orbit := (Orbit Element SymOp).

Lemma find_if_first {A : Type} (pred : A -> bool) (range : list A) (i : nat) :
  find_if pred range = Some i <->
  exists x, range !! i = Some x /\ pred x = true /\
            forall k y, (k < i)%nat -> range !! k = Some y -> pred y = false.
Proof.
  revert i. induction range as [|x range IH]; simpl; intros i.
  - split; [discriminate | intros (y & Hy & _); discriminate].
  - destruct (pred x) eqn:Ex.
    + split.
      * intros [= <-]. exists x. split; [reflexivity|]. split; [exact Ex|]. lia.
      * intros (y & Hy & Hpy & Hfirst). destruct i as [|i]; [reflexivity|].
        specialize (Hfirst 0%nat x ltac:(lia) eq_refl). congruence.
    + destruct (find_if pred range) as [k|] eqn:Efind.
      * split.
        -- intros [= <-]. destruct (proj1 (IH k) eq_refl) as (y & Hy & Hpy & Hfirst).
           exists y. split; [exact Hy|]. split; [exact Hpy|].
           intros [|k'] z Hk Hz; simpl in Hz; [congruence|].
           apply (Hfirst k' z); [lia | exact Hz].
        -- intros (y & Hy & Hpy & Hfirst). destruct i as [|i];
             [simpl in Hy; congruence|].
           f_equal. assert (Some k = Some i) as [= ->]; [|reflexivity].
           apply IH. exists y. split; [exact Hy|]. split; [exact Hpy|].
           intros k' z Hk Hz. apply (Hfirst (S k') z); [lia | exact Hz].
      * split; [discriminate|].
        intros (y & Hy & Hpy & Hfirst). destruct i as [|i];
          [simpl in Hy; congruence|].
        assert (None = Some i) as Habs; [|discriminate].
        apply IH. exists y. split; [exact Hy|]. split; [exact Hpy|].
        intros k' z Hk Hz. apply (Hfirst (S k') z); [lia | exact Hz].
Qed.

Lemma find_if_None {A : Type} (pred : A -> bool) (range : list A) :
  find_if pred range = None <->
  forall k y, range !! k = Some y -> pred y = false.
Proof.
  induction range as [|x range IH]; simpl.
  - split; [intros _ k y Hy; discriminate | reflexivity].
  - destruct (pred x) eqn:Ex.
    + split; [discriminate|]. intros H. specialize (H 0%nat x eq_refl). congruence.
    + destruct (find_if pred range) as [k|].
      * split; [discriminate|]. intros H.
        assert (Some k = None) as Habs; [|discriminate].
        apply IH. intros k' y Hy. exact (H (S k') y Hy).
      * split; [|reflexivity]. intros _ [|k'] y Hy; simpl in Hy; [congruence|].
        exact (proj1 IH eq_refl k' y Hy).
Qed.

(** X11.  [find] returns the position of the first member that is equal to
    [e] for the comparator, and [end()] exactly when no member is;
    [contains] tells whether there is such a member. *)
Theorem find_first_equal (o : orbit) (e : Element) :
  (forall i, find compare o e = Some i <->
     exists B, element o i = Some B /\ equal compare e B = true /\
               forall k B', (k < i)%nat -> element o k = Some B' ->
                            equal compare e B' = false) /\
  (find compare o e = None <->
     forall k B, element o k = Some B -> equal compare e B = false) /\
  (contains compare o e = true <->
     exists k B, element o k = Some B /\ equal compare e B = true).
Proof.
  unfold find, contains, element. split; [|split].
  - intros i. apply find_if_first.
  - apply find_if_None.
  - unfold find. destruct (find_if _ (m_element o)) as [i|] eqn:Efind.
    + split; [|reflexivity]. intros _.
      apply find_if_first in Efind as (B & HB & Heq & _). eauto.
    + split; [discriminate|]. intros (k & B & HB & Heq).
      rewrite (proj1 (find_if_None _ _) Efind k B HB) in Heq. discriminate.
Qed.

(** X12.  For an irreflexive comparator every member of an orbit is
    contained in it, and [find] returns its position or an earlier one; it
    returns its position when no earlier member is equal to it. *)
Theorem find_member (o : orbit) (i : nat) (el : Element) :
  irreflexive compare ->
  element o i = Some el ->
  contains compare o el = true /\
  (exists k, (k <= i)%nat /\ find compare o el = Some k) /\
  ((forall k B, (k < i)%nat -> element o k = Some B ->
                equal compare el B = false) ->
   find compare o el = Some i).
Proof.
  intros Hirr Hel.
  assert (Hself : equal compare el el = true)
    by (unfold equal; rewrite Hirr; reflexivity).
  destruct (find_first_equal o el) as (Hfind & Hnone & Hcontains).
  split; [apply Hcontains; eauto|]. split.
  - destruct (find compare o el) as [k|] eqn:Efind.
    + exists k. split; [|reflexivity].
      destruct (proj1 (Hfind k) eq_refl) as (B & HB & Heq & Hfirst).
      destruct (decide (k <= i)%nat) as [Hk|Hk]; [exact Hk|].
      rewrite (Hfirst i el ltac:(lia) Hel) in Hself. discriminate.
    + rewrite (proj1 Hnone eq_refl i el Hel) in Hself. discriminate.
  - intros Hfirst. apply Hfind. exists el. auto.
Qed.
End FindFacts.
End OrbitFindFacts.

(** ** [DiffTransConfiguration]: sorting and the operation to canonical form *)

Module DiffTransConfigurationFacts.
Import DiffTransConfiguration.

Section DiffTransFacts.
Context {Configuration DiffusionTransformation PermuteIterator : Type}.
Variable prepare : DiffusionTransformation -> DiffusionTransformation.
Variable dt_copy_apply :
  PermuteIterator -> DiffusionTransformation -> DiffusionTransformation.
Variable dt_eq : DiffusionTransformation -> DiffusionTransformation -> bool.
Variable dt_gt : DiffusionTransformation -> DiffusionTransformation -> bool.
Variable reverse : DiffusionTransformation -> DiffusionTransformation.
Variable config_copy_apply : PermuteIterator -> Configuration -> Configuration.
Variable config_lt : Configuration -> Configuration -> bool.

Local Abbreviation dtc := (DiffTransConfiguration Configuration DiffusionTransformation).

Variable to_config : dtc -> Configuration.
Variable dtc_gt : dtc -> dtc -> bool.

Local Abbreviation sort' := (sort reverse config_lt to_config).
Local Abbreviation is_sorted' := (is_sorted config_lt to_config).
Local Abbreviation image dt it := (prepare (dt_copy_apply it dt)).
Local Abbreviation first_loop := (checklist_loop prepare dt_copy_apply dt_eq dt_gt).
Local Abbreviation to_canonical' :=
  (to_canonical prepare dt_copy_apply dt_eq dt_gt reverse config_copy_apply
     config_lt to_config dtc_gt).
Local Abbreviation greatest' := (greatest_image prepare dt_copy_apply dt_eq dt_gt).

(** X13.  When [<] on configurations is asymmetric and the configuration
    reached by the reversed hop from [to_config()] is the configuration the
    hop started from, [sort()] changes nothing the second time, it leaves an
    object whose [to_config()] is not less than its [from_config()], and it
    changes nothing for an object that [is_sorted()]. *)
Theorem sort_idempotent (this : dtc) :
  (forall a b, config_lt a b = true -> config_lt b a = false) ->
  (forall d : dtc,
     to_config {| m_diff_trans := reverse (m_diff_trans d);
                  m_from_config := to_config d |} = m_from_config d) ->
  sort' (sort' this) = sort' this /\
  config_lt (to_config (sort' this)) (m_from_config (sort' this)) = false /\
  (is_sorted' this = true -> sort' this = this).
Proof.
  intros Hasym Hback.
  assert (Hnot : config_lt (to_config (sort' this)) (m_from_config (sort' this))
                 = false).
  { unfold sort. destruct (config_lt (to_config this) (m_from_config this)) eqn:E.
    - simpl. rewrite Hback. exact (Hasym _ _ E).
    - exact E. }
  split; [|split].
  - unfold sort at 1. rewrite Hnot. reflexivity.
  - exact Hnot.
  - unfold is_sorted, sort. intros Hs. rewrite (Hasym _ _ Hs). reflexivity.
Qed.

Lemma checklist_loop_nonempty (dt : DiffusionTransformation)
    (range : list PermuteIterator) :
  forall greatest checklist,
  checklist <> [] -> snd (first_loop dt range greatest checklist) <> [].
Proof.
  induction range as [|it range IH]; simpl; intros greatest checklist Hne;
    [exact Hne|].
  destruct (dt_eq (image dt it) greatest).
  - apply IH. intros Habs. apply app_eq_nil in Habs as [_ Habs]. discriminate.
  - destruct (dt_gt (image dt it) greatest); apply IH; [discriminate | exact Hne].
Qed.

Lemma checklist_loop_untouched (dt : DiffusionTransformation)
    (range : list PermuteIterator) :
  forall greatest checklist,
  (forall it, In it range ->
     dt_eq (image dt it) greatest = false /\ dt_gt (image dt it) greatest = false) ->
  first_loop dt range greatest checklist = (greatest, checklist).
Proof.
  induction range as [|it range IH]; simpl; intros greatest checklist H;
    [reflexivity|].
  destruct (H it (or_introl eq_refl)) as [-> ->].
  apply IH. intros it' Hit'. apply H. right; exact Hit'.
Qed.

Lemma checklist_loop_finds (dt : DiffusionTransformation)
    (range : list PermuteIterator) :
  forall greatest checklist,
  (exists it, In it range /\ dt_eq (image dt it) greatest = true) ->
  snd (first_loop dt range greatest checklist) <> [].
Proof.
  induction range as [|it range IH]; simpl; intros greatest checklist
    (it' & Hin & Heq); [destruct Hin|].
  destruct (dt_eq (image dt it) greatest) eqn:E.
  - apply checklist_loop_nonempty.
    intros Habs. apply app_eq_nil in Habs as [_ Habs]. discriminate.
  - destruct (dt_gt (image dt it) greatest).
    + apply checklist_loop_nonempty. discriminate.
    + apply IH. exists it'. split; [|exact Heq].
      destruct Hin as [<- | Hin]; [congruence | exact Hin].
Qed.

Lemma canon_loop_in (from_sorted : Configuration)
    (greatest : DiffusionTransformation) (checklist : list PermuteIterator) :
  forall max_dtc canon_op_it,
  let op := canon_loop prepare reverse config_copy_apply config_lt to_config
              dtc_gt from_sorted greatest checklist max_dtc canon_op_it in
  op = canon_op_it \/ In op checklist.
Proof.
  induction checklist as [|it checklist IH]; simpl; intros max_dtc canon_op_it;
    [left; reflexivity|].
  destruct (dtc_gt _ max_dtc).
  - destruct (IH (sorted reverse config_lt to_config
                    (make prepare (config_copy_apply it from_sorted) greatest)) it)
      as [-> | H]; right; [left; reflexivity | right; exact H].
  - destruct (IH max_dtc canon_op_it) as [-> | H];
      [left; reflexivity | right; right; exact H].
Qed.

(** X14.  [to_canonical()] returns when an operation of the supercell sends
    the diffusion transformation to a prepared image that [==] its own
    prepared form; when no prepared image [==] or [>] that form, the
    checklist stays empty and there is no result. *)
Theorem to_canonical_defined (permute_range : list PermuteIterator) (this : dtc) :
  ((exists it, In it permute_range /\
               dt_eq (image (m_diff_trans this) it) (prepare (m_diff_trans this))
                 = true) ->
   is_Some (to_canonical' permute_range this)) /\
  ((forall it, In it permute_range ->
      dt_eq (image (m_diff_trans this) it) (prepare (m_diff_trans this)) = false /\
      dt_gt (image (m_diff_trans this) it) (prepare (m_diff_trans this)) = false) ->
   to_canonical' permute_range this = None).
Proof.
  unfold to_canonical. split.
  - intros Hex.
    pose proof (checklist_loop_finds (m_diff_trans this) permute_range
                  (prepare (m_diff_trans this)) [] Hex) as Hne.
    destruct (first_loop (m_diff_trans this) permute_range
                (prepare (m_diff_trans this)) []) as [greatest [|first rest]];
      simpl in Hne; [contradiction | eexists; reflexivity].
  - intros Hnone.
    rewrite (checklist_loop_untouched (m_diff_trans this) permute_range _ []
               Hnone).
    reflexivity.
Qed.

Section Ordered.
(** What the loop takes for granted of [==] and [>] on diffusion
    transformations. *)
Hypothesis dt_eq_refl : forall a, dt_eq a a = true.
Hypothesis dt_eq_not_gt : forall a b, dt_eq a b = true -> dt_gt a b = false.
Hypothesis dt_gt_trans :
  forall a b c, dt_gt a b = true -> dt_gt b c = true -> dt_gt a c = true.
Hypothesis dt_eq_gt :
  forall a b c, dt_eq a b = true -> dt_gt b c = true -> dt_gt a c = true.

Lemma filter_none {A : Type} (f : A -> bool) (l : list A) :
  (forall x, In x l -> f x = false) -> List.filter f l = [].
Proof.
  induction l as [|x l IH]; simpl; intros H; [reflexivity|].
  rewrite (H x (or_introl eq_refl)). apply IH.
  intros y Hy. apply H. right; exact Hy.
Qed.

Lemma dt_gt_irrefl (a : DiffusionTransformation) : dt_gt a a = false.
Proof. apply dt_eq_not_gt, dt_eq_refl. Qed.

(** The invariant of the first loop: the checklist holds the operations
    seen so far whose prepared image [==] [greatest], in their order, and no
    prepared image seen so far is [>] [greatest]. *)
Lemma checklist_loop_inv (dt : DiffusionTransformation)
    (range : list PermuteIterator) :
  forall seen greatest checklist,
  checklist = List.filter (fun it => dt_eq (image dt it) greatest) seen ->
  (forall it, In it seen -> dt_gt (image dt it) greatest = false) ->
  let final := first_loop dt range greatest checklist in
  snd final = List.filter (fun it => dt_eq (image dt it) (fst final))
                (seen ++ range) /\
  (forall it, In it (seen ++ range) -> dt_gt (image dt it) (fst final) = false).
Proof.
  induction range as [|it range IH]; simpl; intros seen greatest checklist Hcl Hmax.
  - rewrite app_nil_r. split; assumption.
  - replace (seen ++ it :: range) with ((seen ++ [it]) ++ range)
      by (rewrite <- app_assoc; reflexivity).
    destruct (dt_eq (image dt it) greatest) eqn:Eeq.
    + apply IH.
      * rewrite List.filter_app; simpl. rewrite Eeq, Hcl. reflexivity.
      * intros it' Hin. apply in_app_or in Hin as [Hin | [<- | []]];
          [exact (Hmax it' Hin) | exact (dt_eq_not_gt _ _ Eeq)].
    + destruct (dt_gt (image dt it) greatest) eqn:Egt.
      * apply IH.
        -- rewrite List.filter_app; simpl. rewrite dt_eq_refl.
           assert (Hnone : List.filter
                             (fun it' => dt_eq (image dt it') (image dt it)) seen
                           = []).
           { apply filter_none. intros a Ha.
             destruct (dt_eq (image dt a) (image dt it)) eqn:Ea; [|reflexivity].
             pose proof (Hmax a Ha) as Hbelow.
             rewrite (dt_eq_gt _ _ _ Ea Egt) in Hbelow. discriminate. }
           rewrite Hnone. reflexivity.
        -- intros it' Hin. apply in_app_or in Hin as [Hin | [<- | []]];
             [|apply dt_gt_irrefl].
           destruct (dt_gt (image dt it') (image dt it)) eqn:Eup; [|reflexivity].
           pose proof (Hmax it' Hin) as Hbelow.
           rewrite (dt_gt_trans _ _ _ Eup Egt) in Hbelow. discriminate.
      * apply IH.
        -- rewrite List.filter_app; simpl. rewrite Eeq, app_nil_r. exact Hcl.
        -- intros it' Hin. apply in_app_or in Hin as [Hin | [<- | []]];
             [exact (Hmax it' Hin) | exact Egt].
Qed.

(** X15.  When [==] and [>] on diffusion transformations behave as an
    order, the operation that [to_canonical()] returns is an operation of
    the supercell that sends the diffusion transformation to a prepared image
    that [==] the greatest one, and no prepared image is [>] that one. *)
Theorem to_canonical_reaches_greatest (permute_range : list PermuteIterator)
    (this : dtc) (op : PermuteIterator) :
  to_canonical' permute_range this = Some op ->
  In op permute_range /\
  dt_eq (image (m_diff_trans this) op) (greatest' permute_range this) = true /\
  (forall it, In it permute_range ->
     dt_gt (image (m_diff_trans this) it) (greatest' permute_range this) = false).
Proof.
  unfold to_canonical, greatest_image.
  pose proof (checklist_loop_inv (m_diff_trans this) permute_range []
                (prepare (m_diff_trans this)) [] eq_refl
                ltac:(intros it [])) as [Hcl Hmax].
  simpl in Hcl, Hmax.
  destruct (first_loop (m_diff_trans this) permute_range
              (prepare (m_diff_trans this)) []) as [greatest checklist];
    simpl in *.
  destruct checklist as [|first rest]; [discriminate|].
  intros [= <-].
  assert (Hin : In (canon_loop prepare reverse config_copy_apply config_lt
                      to_config dtc_gt
                      (m_from_config (sorted reverse config_lt to_config this))
                      greatest rest
                      (sort reverse config_lt to_config
                         (make prepare
                            (config_copy_apply first
                               (m_from_config
                                  (sorted reverse config_lt to_config this)))
                            greatest))
                      first)
                   (first :: rest)).
  { destruct (canon_loop_in
                (m_from_config (sorted reverse config_lt to_config this))
                greatest rest
                (sort reverse config_lt to_config
                   (make prepare
                      (config_copy_apply first
                         (m_from_config
                            (sorted reverse config_lt to_config this)))
                      greatest))
                first) as [-> | H]; [left; reflexivity | right; exact H]. }
  rewrite Hcl in Hin. apply List.filter_In in Hin as [Hrange Heq].
  split; [exact Hrange|]. split; [exact Heq | exact Hmax].
Qed.
End Ordered.
End DiffTransFacts.
End DiffTransConfigurationFacts.

(** ** What the preparation steps do to the sites *)

Module ClusterPrepareFacts.
Import xtal Cluster ClusterSymCompare ClusterTranslation.

#[export] Instance IntegralCluster_translation :
  ClusterTranslationLaws IntegralCluster.
Proof.
  split; intros [|s obj] frac Hsize; simpl in *; congruence.
Qed.

Lemma vec_sub_self (a : UnitCell) : Eigen.vec_sub a a = Eigen.Vec3 0 0 0.
Proof. destruct a; unfold Eigen.vec_sub; simpl. f_equal; lia. Qed.

Lemma vec_add_sub (a b : UnitCell) : Eigen.vec_add a (Eigen.vec_sub b a) = b.
Proof. destruct a, b; unfold Eigen.vec_add, Eigen.vec_sub; simpl. f_equal; lia. Qed.

(** X16.  For an element with constituents whose translation moves its
    position along: the element that
    [PrimPeriodicSymCompare::spatial_prepare_impl] returns has its position
    in the origin unit cell, on the sublattice it was on; the element that
    [ScelPeriodicSymCompare::spatial_prepare_impl] returns has its position
    in the unit cell that [m_bring_within_f] gives for the old position, on
    the sublattice it was on.  This is about the returned element alone, not
    about the translation recorded in [m_spatial_transform]. *)
Theorem spatial_prepare_position {Element : Type} `{ClusterTranslationLaws Element}
    (m_bring_within_f : UnitCellCoord -> UnitCellCoord)
    (m_spatial_transform : SpatialTransform) (obj : Element) :
  size obj <> 0%nat ->
  position (fst (PrimPeriodic_spatial_prepare_impl m_spatial_transform obj)) =
    {| sublat := sublat (position obj); unitcell := Eigen.Vec3 0 0 0 |} /\
  position (fst (ScelPeriodic_spatial_prepare_impl m_bring_within_f
                   m_spatial_transform obj)) =
    {| sublat := sublat (position obj);
       unitcell := unitcell (m_bring_within_f (position obj)) |}.
Proof.
  intros Hsize.
  unfold PrimPeriodic_spatial_prepare_impl, ScelPeriodic_spatial_prepare_impl.
  destruct (Nat.eqb_spec (size obj) 0) as [E|_]; [contradiction|].
  cbn [fst]. split.
  - rewrite position_minus by exact Hsize. unfold ucc_minus.
    rewrite vec_sub_self. reflexivity.
  - rewrite position_plus by exact Hsize. unfold ucc_plus.
    rewrite vec_add_sub. reflexivity.
Qed.

Lemma spatial_prepare_position_witness :
  let obj : IntegralCluster := [MirrorChain.site_at 7; MirrorChain.site_at 1] in
  position (fst (PrimPeriodic_spatial_prepare_impl (Eigen.Vec3 0 0 0) obj))
    = MirrorChain.site_at 0 /\
  position (fst (ScelPeriodic_spatial_prepare_impl MirrorChain.bring_within_f
                   (Eigen.Vec3 0 0 0) obj))
    = MirrorChain.site_at 1.
Proof.
  intros obj.
  assert (Hsize : size obj <> 0%nat) by (simpl; discriminate).
  exact (spatial_prepare_position (Element := IntegralCluster)
           MirrorChain.bring_within_f (Eigen.Vec3 0 0 0) obj Hsize).
Defined.

Lemma insert_sorted_Permutation (s : UnitCellCoord) (l : list UnitCellCoord) :
  insert_sorted s l ≡ₚ s :: l.
Proof.
  induction l as [|t l IH]; simpl; [reflexivity|].
  destruct (ucc_ltb t s); [|reflexivity].
  rewrite IH. apply Permutation_swap.
Qed.

Lemma sort_sites_Permutation (l : list UnitCellCoord) : sort_sites l ≡ₚ l.
Proof.
  unfold sort_sites. induction l as [|s l IH]; simpl; [reflexivity|].
  rewrite insert_sorted_Permutation, IH. reflexivity.
Qed.

(** The loop of [WithinScelSymCompare::representation_prepare_impl] on a
    vector of sites: the sites before position [length done] are brought
    within already. *)
Lemma bring_sites_within_map (f : UnitCellCoord -> UnitCellCoord) :
  forall (todo done : list UnitCellCoord),
  bring_sites_within (Element := IntegralCluster) f
    (seq (length done) (length todo)) (done ++ todo)
  = done ++ map f todo.
Proof.
  induction todo as [|s todo IH]; intros done; simpl; [reflexivity|].
  rewrite app_nth2 by lia. rewrite Nat.sub_diag. simpl.
  rewrite insert_app_r_alt by lia. rewrite Nat.sub_diag. simpl.
  specialize (IH (done ++ [f s])).
  rewrite length_app in IH; simpl in IH.
  replace (length done + 1)%nat with (S (length done)) in IH by lia.
  rewrite <- !app_assoc in IH. simpl in IH. exact IH.
Qed.

(** X17.  On a cluster kept as a vector of sites,
    [WithinScelSymCompare::representation_prepare_impl] returns the sites of
    the cluster brought within the supercell by [m_bring_within_f], each as
    often as it occurs: a rearrangement of the cluster with every site
    brought within. *)
Theorem within_scel_prepare_sites (m_bring_within_f : UnitCellCoord -> UnitCellCoord)
    (obj : IntegralCluster) :
  WithinScel_representation_prepare_impl m_bring_within_f obj
  ≡ₚ map m_bring_within_f obj.
Proof.
  unfold WithinScel_representation_prepare_impl.
  destruct (Nat.eqb_spec (size obj) 0) as [E|_].
  - destruct obj; [reflexivity | discriminate].
  - pose proof (bring_sites_within_map m_bring_within_f obj []) as Hloop.
    simpl in Hloop. change (size obj) with (length obj).
    rewrite Hloop. apply sort_sites_Permutation.
Qed.
End ClusterPrepareFacts.

(** ** The reduction picks one point of every class of the superlattice *)

Module LatticePointClassFacts.
Import Eigen LatticePointWithin LatticePointWithinFacts OrderedLatticePointFacts
  FundamentalDomain.
Local Open Scope Z_scope.

Lemma call_shift (T : matrix_type) (f : LatticePointWithin_f)
    (x k : vector_type) :
  make T = Constructed f ->
  call f (vec_add x (mat_vec T k)) = call f x.
Proof.
  intros Hf. destruct (make_inv _ _ Hf) as (_ & HT & HA & HD).
  unfold call. rewrite HT, HA, HD.
  rewrite mat_vec_add, adjugate_mat_vec, vec_mod_add_scale. reflexivity.
Qed.

Lemma vec_sub_as_add (x y : vector_type) : vec_sub x y = vec_add x (vec_opp y).
Proof. destruct x, y; unfold vec_sub, vec_add, vec_opp; simpl. f_equal; lia. Qed.

Lemma mat_vec_opp (M : matrix_type) (v : vector_type) :
  mat_vec M (vec_opp v) = vec_opp (mat_vec M v).
Proof. destruct M, v; unfold mat_vec, vec_opp; simpl. f_equal; ring. Qed.

(** X18.  Reducing a reduced lattice point changes nothing:
    [reduce(reduce(x)) == reduce(x)]. *)
Theorem call_idempotent (T : matrix_type) (f : LatticePointWithin_f)
    (x : vector_type) :
  make T = Constructed f ->
  call f (call f x) = call f x.
Proof.
  intros Hf. rewrite (within_call_eq T f x Hf) at 1.
  rewrite vec_sub_as_add, <- mat_vec_opp.
  apply (call_shift T f _ _ Hf).
Qed.

(** X19.  Two lattice points reduce to the same point exactly when they
    differ by a vector of the superlattice, [T*k] for an integer vector
    [k]. *)
Theorem call_same_iff (T : matrix_type) (f : LatticePointWithin_f)
    (x y : vector_type) :
  make T = Constructed f ->
  call f x = call f y <-> exists k, y = vec_add x (mat_vec T k).
Proof.
  intros Hf. split.
  - rewrite !(within_call_eq T f) by exact Hf.
    set (qx := vec_div (mat_vec (adjugate T) x) (determinant T)).
    set (qy := vec_div (mat_vec (adjugate T) y) (determinant T)).
    intros Heq. exists (vec_sub qy qx). rewrite mat_vec_sub.
    destruct (mat_vec T qx), (mat_vec T qy), x, y.
    unfold vec_sub, vec_add in *; simpl in *. injection Heq as E0 E1 E2.
    f_equal; lia.
  - intros [k ->]. symmetry. apply (call_shift T f _ _ Hf).
Qed.

Lemma mod_fraction (d a : Z) : d <> 0 -> fraction_of d (a mod d).
Proof.
  intros Hd. unfold fraction_of.
  destruct (Z.lt_trichotomy d 0) as [Hneg | [H0 | Hpos]]; [| contradiction |].
  - pose proof (Z.mod_neg_bound a d Hneg).
    rewrite (Z.sgn_neg d Hneg). lia.
  - pose proof (Z.mod_pos_bound a d Hpos).
    rewrite (Z.sgn_pos d Hpos). lia.
Qed.

(** X20.  A reduced lattice point lies in the fundamental domain: its
    coordinates in the basis of the superlattice, scaled by [det(T)] (the
    adjugate applied to the point), are those of the given point reduced
    modulo [det(T)], and stand for fractions in [0, 1). *)
Theorem call_in_fundamental_domain (T : matrix_type) (f : LatticePointWithin_f)
    (x : vector_type) :
  make T = Constructed f ->
  let scaled := mat_vec (adjugate T) (call f x) in
  scaled = vec_mod (mat_vec (adjugate T) x) (determinant T) /\
  fraction_of (determinant T) (vx scaled) /\
  fraction_of (determinant T) (vy scaled) /\
  fraction_of (determinant T) (vz scaled).
Proof.
  intros Hf scaled. destruct (make_inv _ _ Hf) as (Hd & _).
  assert (Hscaled : scaled = vec_mod (mat_vec (adjugate T) x) (determinant T)).
  { unfold scaled. rewrite (within_call_eq T f x Hf).
    rewrite mat_vec_sub, adjugate_mat_vec.
    destruct (mat_vec (adjugate T) x) as [s0 s1 s2].
    unfold vec_sub, vec_scale, vec_div, vec_mod; simpl.
    f_equal; rewrite Z.mod_eq by exact Hd; reflexivity. }
  split; [exact Hscaled|]. rewrite Hscaled.
  destruct (mat_vec (adjugate T) x) as [s0 s1 s2]; simpl.
  repeat split; apply mod_fraction; exact Hd.
Qed.

Lemma call_idempotent_witness :
  make Cube.transformation_matrix = Constructed Cube.bring_within_f /\
  call Cube.bring_within_f (call Cube.bring_within_f (Vec3 5 (-3) 2))
    = call Cube.bring_within_f (Vec3 5 (-3) 2).
Proof.
  split; [reflexivity|].
  apply (call_idempotent Cube.transformation_matrix). reflexivity.
Defined.

Lemma call_same_iff_witness :
  call Cube.bring_within_f (Vec3 5 (-3) 2) = call Cube.bring_within_f (Vec3 1 1 0)
  <-> exists k, Vec3 1 1 0
                = vec_add (Vec3 5 (-3) 2) (mat_vec Cube.transformation_matrix k).
Proof.
  apply (call_same_iff Cube.transformation_matrix). reflexivity.
Defined.

Lemma call_in_fundamental_domain_witness :
  let scaled := mat_vec (adjugate Cube.transformation_matrix)
                  (call Cube.bring_within_f (Vec3 5 (-3) 2)) in
  scaled = Vec3 4 4 0 /\
  fraction_of 8 (vx scaled) /\ fraction_of 8 (vy scaled) /\
  fraction_of 8 (vz scaled).
Proof.
  exact (call_in_fundamental_domain Cube.transformation_matrix
           Cube.bring_within_f (Vec3 5 (-3) 2) eq_refl).
Defined.
End LatticePointClassFacts.

(** ** The generator enumerates the reduced lattice points *)

Module OrderedLatticePointEnumerationFacts.
Import Eigen OrderedLatticePoint LatticePointWithinFacts OrderedLatticePointFacts
  LatticePointClassFacts.
Local Open Scope Z_scope.

(** Digits within the extents are the digits of the index they compose. *)
Lemma mixed_radix_compose (s0 s1 m n p : Z) :
  0 <= m < s0 -> 0 <= n < s1 -> 0 <= p ->
  let ix := m + n * s0 + p * (s0 * s1) in
  (ix mod (s0 * s1)) mod s0 = m /\
  (ix mod (s0 * s1)) / s0 = n /\
  ix / (s0 * s1) = p.
Proof.
  intros Hm Hn Hp ix.
  assert (Hlow : 0 <= m + n * s0 < s0 * s1) by nia.
  assert (Hmod : ix mod (s0 * s1) = m + n * s0).
  { symmetry. apply (Z.mod_unique ix (s0 * s1) p); [left; exact Hlow|].
    unfold ix. ring. }
  rewrite Hmod. split; [|split].
  - symmetry. apply (Z.mod_unique (m + n * s0) s0 n); [left; lia | ring].
  - symmetry. apply (Z.div_unique (m + n * s0) s0 n m); [left; lia | ring].
  - symmetry. apply (Z.div_unique ix (s0 * s1) p (m + n * s0));
      [left; exact Hlow | unfold ix; ring].
Qed.

Lemma mixed_radix_bound (s0 s1 s2 m n p : Z) :
  0 <= m < s0 -> 0 <= n < s1 -> 0 <= p < s2 ->
  0 <= m + n * s0 + p * (s0 * s1) < s0 * s1 * s2.
Proof.
  intros Hm Hn Hp.
  assert (0 < s0 * s1) by nia.
  assert (n * s0 <= (s1 - 1) * s0) by nia.
  assert (p * (s0 * s1) <= (s2 - 1) * (s0 * s1)) by nia.
  nia.
Qed.

Lemma unimodular_square (d : Z) : Z.abs d = 1 -> d * d = 1.
Proof. intros H. nia. Qed.

Lemma mat_vec_scale (M : matrix_type) (c : Z) (v : vector_type) :
  mat_vec M (vec_scale c v) = vec_scale c (mat_vec M v).
Proof. destruct M, v; unfold mat_vec, vec_scale; simpl. f_equal; ring. Qed.

Lemma vec_scale_scale (c d : Z) (v : vector_type) :
  vec_scale c (vec_scale d v) = vec_scale (c * d) v.
Proof. destruct v; unfold vec_scale; simpl. f_equal; ring. Qed.

Lemma vec_scale_1 (v : vector_type) : vec_scale 1 v = v.
Proof. destruct v; unfold vec_scale; simpl. f_equal; lia. Qed.

(** A unimodular matrix has an integer inverse. *)
Lemma unimodular_inverse (M : matrix_type) (v : vector_type) :
  Z.abs (determinant M) = 1 ->
  mat_vec M (vec_scale (determinant M) (mat_vec (adjugate M) v)) = v.
Proof.
  intros HM.
  rewrite mat_vec_scale, mat_vec_adjugate, vec_scale_scale.
  rewrite (unimodular_square _ HM). apply vec_scale_1.
Qed.

(** Every vector is a point of the Smith normal form box plus the image of
    an integer vector under the diagonal matrix. *)
Lemma diagonal_digits (snf_S : matrix_type) (y : vector_type) :
  is_diagonal snf_S ->
  0 < m00 snf_S -> 0 < m11 snf_S -> 0 < m22 snf_S ->
  let mnp := Vec3 (vx y mod m00 snf_S) (vy y mod m11 snf_S) (vz y mod m22 snf_S) in
  let w := Vec3 (vx y / m00 snf_S) (vy y / m11 snf_S) (vz y / m22 snf_S) in
  y = vec_add mnp (mat_vec snf_S w).
Proof.
  intros (E01 & E02 & E10 & E12 & E20 & E21) H0 H1 H2 mnp w.
  destruct y as [y0 y1 y2]. unfold mnp, w, vec_add, mat_vec; simpl.
  rewrite E01, E02, E10, E12, E20, E21.
  pose proof (Z.div_mod y0 (m00 snf_S) ltac:(lia)).
  pose proof (Z.div_mod y1 (m11 snf_S) ltac:(lia)).
  pose proof (Z.div_mod y2 (m22 snf_S) ltac:(lia)).
  f_equal; lia.
Qed.

(** X21.  For a transformation matrix with its Smith normal form, the
    lattice points that the generator gives are reduced points, and every
    reduced lattice point is given by exactly one index in
    [0 <= ix < size()]: the generator enumerates the fundamental domain
    without omission or repetition. *)
Theorem generator_enumerates_reduced_points (snf : smith_normal_form_type)
    (T snf_U snf_S snf_V : matrix_type) (g : OrderedLatticePointGenerator) :
  snf T = (snf_U, snf_S, snf_V) ->
  is_smith_normal_form T snf_U snf_S snf_V ->
  make snf T = Constructed g ->
  (forall ix, LatticePointWithin.call (m_bring_within_f g) (call g ix) = call g ix) /\
  (forall x, exists ix,
     0 <= ix < size g /\
     call g ix = LatticePointWithin.call (m_bring_within_f g) x /\
     forall ix', 0 <= ix' < size g ->
       call g ix' = LatticePointWithin.call (m_bring_within_f g) x -> ix' = ix).
Proof.
  intros Hsnf Hnf Hg.
  destruct (make_inv_generator _ _ _ Hg) as (f & Hf & Hw & Hn & HU & Hst).
  rewrite Hsnf in HU, Hst; simpl in HU, Hst.
  pose proof Hnf as (HT & HdU & HdV & Hdiag & H0 & H1 & H2).
  split.
  - intros ix. unfold call, _normalize_lattice_point. rewrite Hw.
    apply (call_idempotent T f _ Hf).
  - intros x.
    set (y := vec_scale (determinant snf_U) (mat_vec (adjugate snf_U) x)).
    set (mnp := Vec3 (vx y mod m00 snf_S) (vy y mod m11 snf_S) (vz y mod m22 snf_S)).
    set (w := Vec3 (vx y / m00 snf_S) (vy y / m11 snf_S) (vz y / m22 snf_S)).
    set (k := vec_scale (determinant snf_V) (mat_vec (adjugate snf_V) w)).
    assert (Hx : x = vec_add (mat_vec snf_U mnp) (mat_vec T k)).
    { rewrite HT, !mat_vec_mul. unfold k. rewrite (unimodular_inverse snf_V w HdV).
      rewrite <- mat_vec_add.
      assert (Hy : y = vec_add mnp (mat_vec snf_S w))
        by exact (diagonal_digits snf_S y Hdiag H0 H1 H2).
      rewrite <- Hy. unfold y. symmetry. apply (unimodular_inverse snf_U x HdU). }
    pose proof (Z.mod_pos_bound (vx y) _ H0) as Bm.
    pose proof (Z.mod_pos_bound (vy y) _ H1) as Bn.
    pose proof (Z.mod_pos_bound (vz y) _ H2) as Bp.
    set (ix := vx mnp + vy mnp * m00 snf_S + vz mnp * (m00 snf_S * m11 snf_S)).
    destruct (mixed_radix_compose (m00 snf_S) (m11 snf_S)
                (vx mnp) (vy mnp) (vz mnp) Bm Bn (proj1 Bp))
      as (Em & En & Ep).
    fold ix in Em, En, Ep.
    assert (Hix : 0 <= ix < size g).
    { unfold size. rewrite Hn, (size_is_product _ _ _ _ Hnf).
      exact (mixed_radix_bound _ _ _ _ _ _ Bm Bn Bp). }
    assert (Hcall : call g ix = LatticePointWithin.call (m_bring_within_f g) x).
    { unfold call, _normalize_lattice_point, _make_smith_normal_form_lattice_point.
      rewrite Hw, HU, Hst; simpl. rewrite Em, En, Ep.
      change (Vec3 (vx mnp) (vy mnp) (vz mnp)) with mnp.
      rewrite <- (call_shift T f (mat_vec snf_U mnp) k Hf).
      rewrite <- Hx. reflexivity. }
    exists ix. split; [exact Hix|]. split; [exact Hcall|].
    intros ix' Hix' Hcall'.
    apply (call_injective snf T snf_U snf_S snf_V g ix' ix Hsnf Hnf Hg Hix' Hix).
    rewrite Hcall', Hcall. reflexivity.
Qed.

Lemma generator_enumerates_reduced_points_witness :
  is_smith_normal_form Cube.transformation_matrix
    Identity Cube.transformation_matrix Identity /\
  exists ix,
    0 <= ix < size Cube.generator /\
    call Cube.generator ix
      = LatticePointWithin.call Cube.bring_within_f (Vec3 5 (-3) 2).
Proof.
  assert (Hnf : is_smith_normal_form Cube.transformation_matrix
                  Identity Cube.transformation_matrix Identity)
    by (vm_compute; repeat split; reflexivity).
  split; [exact Hnf|].
  destruct (generator_enumerates_reduced_points Cube.smith_normal_form
              Cube.transformation_matrix Identity Cube.transformation_matrix
              Identity Cube.generator eq_refl Hnf eq_refl) as [_ Hall].
  destruct (Hall (Vec3 5 (-3) 2)) as (ix & Hix & Hcall & _).
  exists ix. split; [exact Hix | exact Hcall].
Defined.
End OrderedLatticePointEnumerationFacts.

(** ** Parsing a label template *)

Module FunctionVisitorFacts.
Import FunctionVisitor.

Lemma is_percent_true (c : ascii) : is_percent c = true -> c = percent.
Proof. unfold is_percent. apply Ascii.eqb_eq. Qed.

Lemma parse_loop_concat :
  forall (n : nat) (rest : cstring) (closed : list cstring) (back : cstring),
  (length rest <= n)%nat ->
  concat (parse_loop rest closed back) = concat closed ++ back ++ rest.
Proof.
  induction n as [|n IH]; intros rest closed back Hn.
  - destruct rest; [|simpl in Hn; lia]. simpl.
    rewrite concat_app; simpl. rewrite !app_nil_r. reflexivity.
  - destruct rest as [|c rest1]; simpl.
    + rewrite concat_app; simpl. rewrite !app_nil_r. reflexivity.
    + simpl in Hn. destruct (is_percent c).
      * destruct back as [|b back1]; destruct rest1 as [|c1 [|c2 rest3]];
          try (rewrite IH by (simpl in *; lia));
          repeat rewrite concat_app; simpl;
          repeat rewrite app_nil_r; repeat rewrite <- app_assoc; reflexivity.
      * rewrite IH by lia. rewrite <- !app_assoc. reflexivity.
Qed.

(** X22.  The sub-strings into which a labeler's constructor parses its
    template, put together again in their order, are the template. *)
Theorem parse_concat (_template : cstring) :
  concat (parse _template) = _template.
Proof.
  unfold parse. destruct _template as [|c t]; [reflexivity|].
  rewrite (parse_loop_concat (length (c :: t))) by lia. reflexivity.
Qed.

Lemma Forall_snoc {A : Type} (P : A -> Prop) (l : list A) (x : A) :
  List.Forall P l -> P x -> List.Forall P (l ++ [x]).
Proof.
  intros Hl Hx. apply List.Forall_app. split; [exact Hl|].
  constructor; [exact Hx | constructor].
Qed.

Lemma parse_loop_pieces :
  forall (n : nat) (rest : cstring) (closed : list cstring) (back : cstring),
  (length rest <= n)%nat ->
  List.Forall piece closed -> literal back -> (back <> [] \/ rest <> []) ->
  List.Forall piece (parse_loop rest closed back).
Proof.
  induction n as [|n IH]; intros rest closed back Hn Hclosed Hback Hsome.
  - destruct rest; [|simpl in Hn; lia]. simpl.
    apply Forall_snoc; [exact Hclosed|].
    split; [destruct Hsome as [H|H]; [exact H | contradiction]|].
    right; exact Hback.
  - destruct rest as [|c rest1]; simpl.
    + apply Forall_snoc; [exact Hclosed|].
      split; [destruct Hsome as [H|H]; [exact H | contradiction]|].
      right; exact Hback.
    + simpl in Hn. destruct (is_percent c) eqn:Ec.
      * apply is_percent_true in Ec. subst c.
        assert (Hone : piece [percent]).
        { split; [discriminate|]. left. exists [].
          split; [reflexivity | simpl; lia]. }
        assert (Htwo : forall c1, piece [percent; c1]).
        { intros c1. split; [discriminate|]. left. exists [c1].
          split; [reflexivity | simpl; lia]. }
        assert (Hback' : forall b back1, back = b :: back1 -> piece back).
        { intros b back1 E. split; [rewrite E; discriminate | right; exact Hback]. }
        destruct back as [|b back1]; destruct rest1 as [|c1 [|c2 rest3]].
        -- apply Forall_snoc; [exact Hclosed | exact Hone].
        -- apply Forall_snoc; [exact Hclosed | exact (Htwo c1)].
        -- apply IH; [simpl in *; lia | | intros x [] | right; discriminate].
           apply Forall_snoc; [exact Hclosed | exact (Htwo c1)].
        -- apply Forall_snoc; [|exact Hone].
           apply Forall_snoc; [exact Hclosed | exact (Hback' b back1 eq_refl)].
        -- apply Forall_snoc; [|exact (Htwo c1)].
           apply Forall_snoc; [exact Hclosed | exact (Hback' b back1 eq_refl)].
        -- apply IH; [simpl in *; lia | | intros x [] | right; discriminate].
           apply Forall_snoc; [|exact (Htwo c1)].
           apply Forall_snoc; [exact Hclosed | exact (Hback' b back1 eq_refl)].
      * apply IH.
        -- lia.
        -- exact Hclosed.
        -- intros x Hx. apply in_app_or in Hx as [Hx | [<- | []]];
             [exact (Hback x Hx) | exact Ec].
        -- left. intros Habs. apply app_eq_nil in Habs as [_ Habs]. discriminate.
Qed.

(** X23.  Every sub-string of a parsed template has characters, and it is a
    ['%'] with at most one character after it, or a text without ['%']; an
    empty template has no sub-string. *)
Theorem parse_pieces (_template : cstring) :
  List.Forall piece (parse _template) /\
  (_template = [] <-> parse _template = []).
Proof.
  unfold parse. destruct _template as [|c t].
  - split; [constructor | split; reflexivity].
  - pose proof (parse_loop_pieces (length (c :: t)) (c :: t) [] []
                  ltac:(lia) ltac:(constructor) ltac:(intros x [])
                  ltac:(right; discriminate)) as Hpieces.
    split; [exact Hpieces|].
    split; [discriminate|]. intros Hnil.
    pose proof (parse_loop_concat (length (c :: t)) (c :: t) [] [] ltac:(lia))
      as Hconcat.
    rewrite Hnil in Hconcat. discriminate.
Qed.

Lemma parse_loop_literal (rest : cstring) :
  literal rest ->
  forall closed back, parse_loop rest closed back = closed ++ [back ++ rest].
Proof.
  induction rest as [|c rest IH]; intros Hlit closed back; simpl.
  - rewrite app_nil_r. reflexivity.
  - rewrite (Hlit c) by (left; reflexivity).
    rewrite IH by (intros x Hx; apply Hlit; right; exact Hx).
    rewrite <- app_assoc. reflexivity.
Qed.

Section LabelerFacts.
Variable valid_index : Z -> bool.
Variable show_index : Z -> cstring.

Lemma expand_literal (host : OccupantFunction) (s : cstring) :
  literal s -> expand valid_index show_index host s = s.
Proof.
  intros Hlit. unfold expand, tag.
  destruct s as [|c s]; [reflexivity|].
  assert (Hc : Ascii.eqb c percent = false) by (apply (Hlit c); left; reflexivity).
  simpl. rewrite Hc. reflexivity.
Qed.

(** X24.  For a template without ['%'], [OccFuncLabeler::visit] sets the
    formula of the function it visits to the template itself, whatever the
    indices of the function are, and returns [true]. *)
Theorem visit_literal_template (_template : cstring) (host : OccupantFunction) :
  literal _template ->
  OccFuncLabeler_visit valid_index show_index (parse _template) host =
  (set_formula host _template, true).
Proof.
  intros Hlit. unfold OccFuncLabeler_visit, parse. f_equal. f_equal.
  destruct _template as [|c t]; [reflexivity|].
  rewrite (parse_loop_literal (c :: t) Hlit). simpl.
  rewrite app_nil_r. apply (expand_literal host (c :: t) Hlit).
Qed.
End LabelerFacts.

Example parse_mixed_template :
  parse ["p"; "h"; "i"; "_"; "%"; "b"; "_"; "%"; "f"; "%"]%char =
  [["p"; "h"; "i"; "_"]; ["%"; "b"]; ["_"]; ["%"; "f"]; ["%"]]%char.
Proof. reflexivity. Qed.

Lemma visit_literal_template_witness :
  let host := {| dof_ID := 2; occ_func_ind := -1; basis_ind := 0; formula := [] |} in
  literal ["x"; "y"]%char /\
  OccFuncLabeler_visit (Z.leb 0) (fun _ => ["7"%char])
    (parse ["x"; "y"]%char) host
  = (set_formula host ["x"; "y"]%char, true).
Proof.
  intros host.
  assert (Hlit : literal ["x"; "y"]%char).
  { intros c [<- | [<- | []]]; reflexivity. }
  split; [exact Hlit|].
  exact (visit_literal_template (Z.leb 0) (fun _ => ["7"%char])
           ["x"; "y"]%char host Hlit).
Defined.
End FunctionVisitorFacts.

(** ** The additional properties at work *)

Module OrbitFindWitness.
Import Orbit OrbitFindFacts MirrorChain MirrorChainFacts.

Lemma find_member_witness :
  let o := construct prepare compare copy_apply cluster_2_5 [Identity; Mirror] in
  element o 1 = Some [site_at 0; site_at 3] /\
  contains compare o [site_at 0; site_at 3] = true /\
  find compare o [site_at 0; site_at 3] = Some 1%nat.
Proof.
  intros o.
  destruct (find_member compare o 1 [site_at 0; site_at 3]
              compare_irreflexive eq_refl) as (Hcontains & _ & Hfind).
  split; [reflexivity|]. split; [exact Hcontains|].
  apply Hfind. intros [|k] B Hk HB; [|lia].
  injection HB as <-. reflexivity.
Defined.
End OrbitFindWitness.

Module LineHopsFacts.
Import DiffTransConfiguration DiffTransConfigurationFacts MirrorChain LineHops.
Local Open Scope Z_scope.

Lemma ltb_asymmetric (a b : Z) : (a <? b) = true -> (b <? a) = false.
Proof. rewrite Z.ltb_lt, Z.ltb_ge. lia. Qed.

Lemma to_config_back (d : DTC) :
  to_config {| m_diff_trans := reverse (m_diff_trans d);
               m_from_config := to_config d |} = m_from_config d.
Proof. destruct d; unfold to_config, reverse; simpl. lia. Qed.

Lemma eqb_not_gtb (a b : Z) : (a =? b) = true -> (a >? b) = false.
Proof. rewrite Z.eqb_eq, Z.gtb_ltb, Z.ltb_ge. lia. Qed.

Lemma gtb_transitive (a b c : Z) :
  (a >? b) = true -> (b >? c) = true -> (a >? c) = true.
Proof. rewrite !Z.gtb_ltb, !Z.ltb_lt. lia. Qed.

Lemma eqb_gtb (a b c : Z) :
  (a =? b) = true -> (b >? c) = true -> (a >? c) = true.
Proof. rewrite Z.eqb_eq, !Z.gtb_ltb, !Z.ltb_lt. lia. Qed.

Lemma sort_idempotent_witness :
  sort reverse Z.ltb to_config hop_3_to_1
    = {| m_diff_trans := 2; m_from_config := 1 |} /\
  sort reverse Z.ltb to_config (sort reverse Z.ltb to_config hop_3_to_1)
    = sort reverse Z.ltb to_config hop_3_to_1.
Proof.
  split; [reflexivity|].
  exact (proj1 (sort_idempotent reverse Z.ltb to_config hop_3_to_1
                  ltb_asymmetric to_config_back)).
Defined.

Lemma to_canonical_reaches_greatest_witness :
  to_canonical prepare dt_copy_apply Z.eqb Z.gtb reverse config_copy_apply
    Z.ltb to_config dtc_gt [Identity; Mirror] hop_3_to_1 = Some Mirror /\
  In Mirror [Identity; Mirror] /\
  (prepare (dt_copy_apply Mirror (m_diff_trans hop_3_to_1))
   =? greatest_image prepare dt_copy_apply Z.eqb Z.gtb [Identity; Mirror]
        hop_3_to_1) = true.
Proof.
  split; [reflexivity|].
  destruct (to_canonical_reaches_greatest prepare dt_copy_apply Z.eqb Z.gtb
              reverse config_copy_apply Z.ltb to_config dtc_gt
              Z.eqb_refl eqb_not_gtb gtb_transitive eqb_gtb
              [Identity; Mirror] hop_3_to_1 Mirror eq_refl) as (Hin & Heq & _).
  split; [exact Hin | exact Heq].
Defined.
End LineHopsFacts.
